(** * rtp-player: playlist, programme guide and time-shift core

    A shallow embedding of the TypeScript sources

      - [src/lib/epg-parser.ts]  ([parseEPG], [generateFallbackPrograms]),
      - [src/lib/m3u-parser.ts]  ([parseM3U]),
      - [src/App.tsx]            (the [App] component and the player page),
      - [src/components/player/Player.tsx]  (the handlers of the player),

    followed by the properties of the specification that concern them and
    by further properties of the code.

    Conventions of the embedding.

      - A JavaScript [Date] is its time value in milliseconds since the
        epoch, an integer; [Invalid Date] (time value NaN) is [None].  The
        range limit of 8.64e15 ms on time values is not modelled.
      - A JavaScript string is a sequence of code units; the embedding uses
        Rocq's [string], so code units range over 0..255.
      - [new Date()] reads the wall clock: every function that calls it takes
        the instant read as an explicit argument [now].
      - React state is an explicit record; a handler is a function from the
        state to the next state. *)

From Stdlib Require Import ZArith List String Ascii Bool Lia QArith Qround.
From Stdlib Require Import DecimalString Sorted Permutation.
From Equations Require Import Equations.
From stdpp Require Import base option list gmap strings.
Import ListNotations.

Local Open Scope string_scope.
Local Open Scope Z_scope.

(* ===================================================================== *)
(** * Part I: the embedding                                               *)
(* ===================================================================== *)

(** ** The pieces of the JavaScript runtime the sources rely on *)

Module JS.

(** A [Date]: [Some t] has time value [t] ms, [None] is [Invalid Date]. *)
Definition Date : Type := option Z.

(** [d.getTime()], a number; NaN is [None]. *)
Definition getTime (d : Date) : option Z := d.

(** The relational operators on two [Date]s compare the time values; a
    comparison with NaN on either side is false. *)
Definition lt (a b : Date) : bool :=
  match a, b with Some x, Some y => x <? y | _, _ => false end.
Definition le (a b : Date) : bool :=
  match a, b with Some x, Some y => x <=? y | _, _ => false end.
Definition gt (a b : Date) : bool := lt b a.
Definition ge (a b : Date) : bool := le b a.

(** [x - y] on numbers, NaN when either side is NaN. *)
Definition sub (x y : option Z) : option Z :=
  match x, y with Some a, Some b => Some (a - b) | _, _ => None end.

(** What [Array.prototype.sort] makes of a comparator's result [v]: the
    pair is out of order when [v > 0]; NaN counts as [+0]. *)
Definition positive (v : option Z) : bool :=
  match v with Some z => 0 <? z | None => false end.

(** [Array.prototype.sort(cmp)] is stable; it is modelled as a stable
    insertion sort.  (For a comparator that is not a consistent order
    the standard leaves the resulting order to the implementation; the
    model fixes this one.) *)
Fixpoint insertBy {A : Type} (cmp : A -> A -> option Z) (x : A) (l : list A)
  : list A :=
  match l with
  | [] => [x]
  | y :: l' => if positive (cmp x y) then y :: insertBy cmp x l'
               else x :: y :: l'
  end.

Definition sortBy {A : Type} (cmp : A -> A -> option Z) (l : list A) : list A :=
  fold_right (insertBy cmp) [] l.

(** Template-literal printing of an integer number: decimal, with a
    leading minus sign when negative. *)
Definition showZ (z : Z) : string := NilZero.string_of_int (Z.to_int z).
Definition showNat (n : nat) : string := NilZero.string_of_uint (Nat.to_uint n).

(** What a call that may throw gives back. *)
Inductive Outcome (A : Type) : Type :=
| Returned (a : A)
| Thrown (message : string).
Arguments Returned {A} a.
Arguments Thrown {A} message.

(** The day number of 1 January of year [y] (ECMAScript DayFromYear). *)
Definition dayFromYear (y : Z) : Z :=
  365 * (y - 1970) + (y - 1969) / 4 - (y - 1901) / 100 + (y - 1601) / 400.

Definition inLeapYear (y : Z) : bool :=
  ((y mod 4 =? 0) && negb (y mod 100 =? 0)) || (y mod 400 =? 0).

(** Days of the year before month [m] (0 = January). *)
Definition daysBeforeMonth (leap : bool) (m : Z) : Z :=
  nth (Z.to_nat m) [0; 31; 59; 90; 120; 151; 181; 212; 243; 273; 304; 334] 0
  + (if leap && (2 <=? m) then 1 else 0).

(** ECMAScript MakeDay, MakeTime and MakeDate on integers: a month
    outside 0..11 carries into the year, a day of the month outside the
    month carries into the neighbouring months. *)
Definition makeDay (year month date : Z) : Z :=
  let ym := year + month / 12 in
  let mn := month mod 12 in
  dayFromYear ym + daysBeforeMonth (inLeapYear ym) mn + date - 1.

Definition makeTime (hour minute second ms : Z) : Z :=
  hour * 3600000 + minute * 60000 + second * 1000 + ms.

Definition makeDate (day time : Z) : Z := day * 86400000 + time.

(** [new Date(year, month, day, hour, minute, second)]: the fields are
    local time; [tz] is the offset of local time from UTC in ms, taken
    as constant.  A NaN field gives [Invalid Date]; a year in 0..99
    means 1900 + year. *)
Definition newDate (tz : Z) (year month day hour minute second : option Z)
  : Date :=
  match year, month, day, hour, minute, second with
  | Some y, Some mo, Some d, Some h, Some mi, Some s =>
      let yr := if (0 <=? y) && (y <=? 99) then 1900 + y else y in
      Some (makeDate (makeDay yr mo d) (makeTime h mi s 0) - tz)
  | _, _, _, _, _, _ => None
  end.

(** [x || 0] on numbers: NaN and 0 are falsy. *)
Definition orZero (x : option Z) : option Z :=
  match x with Some v => Some v | None => Some 0 end.

(** A number in a template literal. *)
Definition showNumber (x : option Z) : string :=
  match x with Some v => showZ v | None => "NaN" end.

(** The property names of [Object.prototype]: an object literal has
    them without owning them, each with a truthy value that is not an
    array. *)
Definition objectPrototypeKeys : list string :=
  [ "constructor"; "__defineGetter__"; "__defineSetter__"; "hasOwnProperty";
    "__lookupGetter__"; "__lookupSetter__"; "isPrototypeOf";
    "propertyIsEnumerable"; "toString"; "valueOf"; "__proto__";
    "toLocaleString" ].

(** Truthiness of an optional string: [undefined] and the empty string
    are falsy. *)
Definition truthy (o : option string) : bool :=
  match o with Some s => negb (String.eqb s "") | None => false end.

(** [a || b] on optional strings, and [a || d] for a string [d]. *)
Definition orElse (a b : option string) : option string :=
  if truthy a then a else b.

Definition orDefault (a : option string) (d : string) : string :=
  match a with
  | Some s => if truthy a then s else d
  | None => d
  end.

(** [arr[i]] for a number [i] that is an integer: [undefined] outside
    [0 .. length - 1]. *)
Definition at_ {A : Type} (arr : list A) (i : Z) : option A :=
  if i <? 0 then None else nth_error arr (Z.to_nat i).


End JS.

(** ** Strings: the [String.prototype] methods and regular expressions used *)

Module JSString.

(** White space as [trim] and the class [\s] see it, among the code units
    0..255: TAB, LF, VT, FF, CR, SP and NBSP. *)
Definition isWhiteSpace (c : ascii) : bool :=
  let n := nat_of_ascii c in
  existsb (Nat.eqb n) [9; 10; 11; 12; 13; 32; 160]%nat.

Definition isDigit (c : ascii) : bool :=
  let n := nat_of_ascii c in (48 <=? n)%nat && (n <=? 57)%nat.

Definition quote : ascii := "034"%char.
Definition LF : ascii := "010"%char.
Definition CR : ascii := "013"%char.

Definition isEmpty (s : string) : bool :=
  match s with EmptyString => true | String _ _ => false end.

Fixpoint trimStart (s : string) : string :=
  match s with
  | String c r => if isWhiteSpace c then trimStart r else s
  | EmptyString => EmptyString
  end.

Fixpoint trimEnd (s : string) : string :=
  match s with
  | String c r =>
      let r' := trimEnd r in
      if isWhiteSpace c && isEmpty r' then EmptyString else String c r'
  | EmptyString => EmptyString
  end.

(** [s.trim()]. *)
Definition trim (s : string) : string := trimEnd (trimStart s).

(** [s.startsWith(p)]. *)
Definition startsWith (p s : string) : bool := String.prefix p s.

(** [s.substring(n)]. *)
Fixpoint dropChars (n : nat) (s : string) : string :=
  match n, s with
  | S n', String _ r => dropChars n' r
  | _, _ => s
  end.

(** [s.substring(a, b)] for [a <= b]. *)
Definition substring (a b : nat) (s : string) : string :=
  String.substring a (b - a) s.

(** The longest prefix of code units satisfying [f]. *)
Fixpoint takeWhile (f : ascii -> bool) (s : string) : string :=
  match s with
  | String c r => if f c then String c (takeWhile f r) else EmptyString
  | EmptyString => EmptyString
  end.

(** [content.split(/\r?\n/)]: a line ends at LF, or at CR LF. *)
Fixpoint splitLines (s : string) : list string :=
  match s with
  | EmptyString => [EmptyString]
  | String c r =>
      match splitLines r with
      | first :: rest =>
          if Ascii.eqb c LF then EmptyString :: first :: rest
          else if Ascii.eqb c CR && startsWith (String LF EmptyString) r
               then first :: rest
               else String c first :: rest
      | [] => [String c EmptyString]
      end
  end.

(** [s.split(/,\s*/)]: a separator is a comma and the white space that
    follows it; [skipping] holds inside the white space of a separator. *)
Fixpoint splitCommaFrom (skipping : bool) (s : string) : list string :=
  match s with
  | EmptyString => [EmptyString]
  | String c r =>
      if Ascii.eqb c ","%char then EmptyString :: splitCommaFrom true r
      else if skipping && isWhiteSpace c then splitCommaFrom true r
      else match splitCommaFrom false r with
           | first :: rest => String c first :: rest
           | [] => [String c EmptyString]
           end
  end.

Definition splitComma (s : string) : list string := splitCommaFrom false s.

(** [arr.pop()] of a freshly built array: its last element. *)
Definition pop (arr : list string) : option string := last arr.

(** An attempt to match the pattern [key=Q([^Q]+)Q], where [Q] stands
    for the double quote, at the very start of [s]: the key, the equals
    sign and a quote, then one or more code units other than the quote,
    then a quote.  The result is the capture group. *)
Definition matchAttrHere (key s : string) : option string :=
  let opening := key ++ String "="%char (String quote EmptyString) in
  if startsWith opening s then
    let rest := dropChars (String.length opening) s in
    let value := takeWhile (fun c => negb (Ascii.eqb c quote)) rest in
    if negb (isEmpty value)
       && startsWith (String quote EmptyString) (dropChars (String.length value) rest)
    then Some value else None
  else None.

(** [s.match] on that pattern: the match at the leftmost position that
    has one; [None] is [null], [Some v] the capture group [[1]]. *)
Fixpoint matchAttr (key s : string) : option string :=
  match matchAttrHere key s with
  | Some v => Some v
  | None =>
      match s with
      | String _ r => matchAttr key r
      | EmptyString => None
      end
  end.

(** The value of a digit in radices up to 36. *)
Definition digitValue (c : ascii) : option Z :=
  let n := Z.of_nat (nat_of_ascii c) in
  if (48 <=? n) && (n <=? 57) then Some (n - 48)
  else if (97 <=? n) && (n <=? 122) then Some (n - 87)
  else if (65 <=? n) && (n <=? 90) then Some (n - 55)
  else None.

(** The value of the longest prefix of digits of [s] in [radix], on top
    of the digits already read ([acc], [None] when there is none yet). *)
Fixpoint digitsValue (radix : Z) (acc : option Z) (s : string) : option Z :=
  match s with
  | String c r =>
      match digitValue c with
      | Some d =>
          if d <? radix
          then digitsValue radix (Some (default 0 acc * radix + d)) r
          else acc
      | None => acc
      end
  | EmptyString => acc
  end.

(** [parseInt(s)] without a radix: leading white space, a sign, a [0x]
    prefix for radix 16, then the longest prefix of digits; NaN ([None])
    when there is no digit.  The integer is exact: the rounding of large
    values to floating point is not modelled. *)
Definition parseInt (s : string) : option Z :=
  let s1 := trimStart s in
  let negative := startsWith "-" s1 in
  let s2 := if startsWith "-" s1 || startsWith "+" s1 then dropChars 1 s1 else s1 in
  let hex := startsWith "0x" s2 || startsWith "0X" s2 in
  let s3 := if hex then dropChars 2 s2 else s2 in
  match digitsValue (if hex then 16 else 10) None s3 with
  | Some v => Some (if negative then - v else v)
  | None => None
  end.

(** [s] consists of white space (at least one code unit), a sign and
    four digits: the pattern [\s+[+-]\d{4}$] matches at its start. *)
Definition isTimezoneSuffix (s : string) : bool :=
  let r := trimStart s in
  negb (Nat.eqb (String.length r) (String.length s))
  && match r with
     | String sign digits =>
         (Ascii.eqb sign "+"%char || Ascii.eqb sign "-"%char)
         && Nat.eqb (String.length digits) 4
         && isEmpty (dropChars (String.length (takeWhile isDigit digits)) digits)
     | EmptyString => false
     end.

(** [s.replace(/\s+[+-]\d{4}$/, "")]: the leftmost position at which the
    pattern matches starts the part removed. *)
Fixpoint stripTimezone (s : string) : string :=
  if isTimezoneSuffix s then EmptyString
  else match s with
       | String c r => String c (stripTimezone r)
       | EmptyString => EmptyString
       end.

(** The default order of [Array.prototype.sort()] on strings: code unit
    by code unit, as a comparator. *)
Definition compareStrings (a b : string) : option Z :=
  Some (match String.compare a b with Lt => -1 | Eq => 0 | Gt => 1 end).

(** [set.add(x)] on a [Set<string>], kept in insertion order. *)
Definition setAdd (x : string) (s : list string) : list string :=
  if existsb (String.eqb x) s then s else s ++ [x].

End JSString.

(** ** [types/player]: the programme record *)

Record EPGProgram : Type := mkProgram {
  prog_id    : string;
  prog_title : string;
  prog_start : JS.Date;
  prog_end   : JS.Date
}.

(** ** [lib/epg-parser.ts]: [generateFallbackPrograms] *)

Module EpgParser.

Definition TWO_HOURS_MS : Z := 2 * 60 * 60 * 1000.

(** The title of a fallback block, "精彩节目". *)
Definition FALLBACK_TITLE : string := "精彩节目".

(** The predicate handed to [existingPrograms.some] (lines 94-97). *)
Definition overlapsBlock (currentStart currentEnd : Z) (p : EPGProgram) : bool :=
  (JS.le (prog_start p) (Some currentStart) && JS.gt (prog_end p) (Some currentStart))
  || (JS.lt (prog_start p) (Some currentEnd) && JS.ge (prog_end p) (Some currentEnd))
  || (JS.ge (prog_start p) (Some currentStart) && JS.le (prog_end p) (Some currentEnd)).

Definition hasOverlap (existingPrograms : list EPGProgram)
  (currentStart currentEnd : Z) : bool :=
  existsb (overlapsBlock currentStart currentEnd) existingPrograms.

(** The block pushed at lines 101-106. *)
Definition fallbackBlock (channelId : string) (currentStart currentEnd : Z)
  : EPGProgram :=
  {| prog_id := "fallback-" ++ channelId ++ "-" ++ JS.showZ currentStart;
     prog_title := FALLBACK_TITLE;
     prog_start := Some currentStart;
     prog_end := Some currentEnd |}.

(** The [while (currentStart < now)] loop of lines 89-110; the result is
    the content of [fallbackPrograms], in the order of the pushes.  The
    distance to [now] shrinks by two hours per turn. *)
Equations? fallbackLoop (existingPrograms : list EPGProgram) (channelId : string)
  (now currentStart : Z) : list EPGProgram
  by wf (Z.to_nat (now - currentStart)) lt :=
  fallbackLoop existingPrograms channelId now currentStart
    with Z_lt_dec currentStart now => {
    | left _ :=
        let currentEnd := currentStart + TWO_HOURS_MS in
        if hasOverlap existingPrograms currentStart currentEnd
        then fallbackLoop existingPrograms channelId now currentEnd
        else fallbackBlock channelId currentStart currentEnd
               :: fallbackLoop existingPrograms channelId now currentEnd;
    | right _ := [] }.
Proof. all: subst currentEnd; unfold TWO_HOURS_MS; lia. Qed.

(** [generateFallbackPrograms(existingPrograms, channelId, lookbackHours)]
    at the instant [now]; [Math.floor (a / b)] with [b > 0] is [a / b]
    on [Z]. *)
Definition generateFallbackPrograms (now : Z) (existingPrograms : list EPGProgram)
  (channelId : string) (lookbackHours : Z) : list EPGProgram :=
  let startTime := now - lookbackHours * 60 * 60 * 1000 in
  let hoursSinceEpoch := startTime / (60 * 60 * 1000) in
  let roundedHours := hoursSinceEpoch / 2 * 2 in
  fallbackLoop existingPrograms channelId now (roundedHours * 60 * 60 * 1000).

(** The comparator [(a, b) => a.start.getTime() - b.start.getTime()]. *)
Definition byStart (a b : EPGProgram) : option Z :=
  JS.sub (JS.getTime (prog_start a)) (JS.getTime (prog_start b)).

(** A [programme] element as [parseEPG] reads it: the attributes
    [channel], [start], [stop] ([None] when the attribute is missing) and
    the text content of its first [title] descendant ([None] when there
    is none).  The document is parsed by the browser; the embedding
    starts from the elements [querySelectorAll] returns, in document
    order. *)
Record Programme : Type := mkProgramme {
  el_channel : option string;
  el_start   : option string;
  el_stop    : option string;
  el_title   : option string
}.

(** [parseTime] (lines 23-36); [now] is the clock reading of its
    [new Date()], [tz] the offset of local time. *)
Definition parseTime (tz now : Z) (timeStr : string) : JS.Date :=
  if JSString.isEmpty timeStr then Some now else
  let cleanStr := JSString.stripTimezone timeStr in
  let year := JSString.parseInt (JSString.substring 0 4 cleanStr) in
  let month := JS.sub (JSString.parseInt (JSString.substring 4 6 cleanStr)) (Some 1) in
  let day := JSString.parseInt (JSString.substring 6 8 cleanStr) in
  let hour := JSString.parseInt (JSString.substring 8 10 cleanStr) in
  let minute := JSString.parseInt (JSString.substring 10 12 cleanStr) in
  let second := JS.orZero (JSString.parseInt (JSString.substring 12 14 cleanStr)) in
  JS.newDate tz year month day hour minute second.

Definition channelOf (item : Programme) : string := default "" (el_channel item).

(** The entry pushed for the [i]-th element (lines 18-52).  [clock] gives
    the reading of each [new Date()]: reading [2 i] for the start of
    element [i], reading [2 i + 1] for its stop. *)
Definition programmeEntry (tz : Z) (clock : nat -> Z) (i : nat) (item : Programme)
  : EPGProgram :=
  let channelId := channelOf item in
  let startStr := default "" (el_start item) in
  let stopStr := default "" (el_stop item) in
  let start := parseTime tz (clock (2 * i)%nat) startStr in
  let end_ := parseTime tz (clock (2 * i + 1)%nat) stopStr in
  let title := default "" (el_title item) in
  {| prog_id := channelId ++ "-" ++ JS.showNumber (JS.getTime start);
     prog_title := title;
     prog_start := start;
     prog_end := end_ |}.

(** Lines 43-52 on the object [epgData]: a key that [epgData] does not
    own but inherits from [Object.prototype] has a truthy value without
    [push], and the call throws a [TypeError]. *)
Definition pushEntry (epgData : gmap string (list EPGProgram)) (channelId : string)
  (entry : EPGProgram) : JS.Outcome (gmap string (list EPGProgram)) :=
  match epgData !! channelId with
  | Some programs => JS.Returned (<[channelId := (programs ++ [entry])%list]> epgData)
  | None =>
      if existsb (String.eqb channelId) JS.objectPrototypeKeys
      then JS.Thrown "TypeError: epgData[channelId].push is not a function"
      else JS.Returned (<[channelId := [entry]]> epgData)
  end.

(** [items.forEach] from the [i]-th element on. *)
Fixpoint collect (tz : Z) (clock : nat -> Z) (i : nat) (items : list Programme)
  (epgData : gmap string (list EPGProgram))
  : JS.Outcome (gmap string (list EPGProgram)) :=
  match items with
  | [] => JS.Returned epgData
  | item :: rest =>
      match pushEntry epgData (channelOf item) (programmeEntry tz clock i item) with
      | JS.Returned epgData' => collect tz clock (S i) rest epgData'
      | JS.Thrown m => JS.Thrown m
      end
  end.

(** [parseEPG(xml)], from the [programme] elements of the document. *)
Definition parseEPG (tz : Z) (clock : nat -> Z) (items : list Programme)
  : JS.Outcome (gmap string (list EPGProgram)) :=
  match collect tz clock 0 items ∅ with
  | JS.Returned epgData => JS.Returned (JS.sortBy byStart <$> epgData)
  | JS.Thrown m => JS.Thrown m
  end.

End EpgParser.

(** ** [types/player]: channels, catalog, segments

    The declarations of [types/player] are read off the object literals of
    [parseM3U] and of the player page.  An optional field is an [option]. *)

Record Channel : Type := mkChannel {
  ch_id            : string;
  ch_name          : string;
  ch_group         : string;
  ch_url           : string;
  ch_logo          : option string;
  ch_tvgId         : option string;
  ch_tvgName       : option string;
  ch_catchup       : option string;
  ch_catchupSource : option string
}.

Record M3UMetadata : Type := mkMetadata {
  md_tvgUrl   : option string;
  md_channels : list Channel;
  md_groups   : list string
}.

(** [mpegts.MediaSegment] as the page builds it. *)
Record MediaSegment : Type := mkSegment {
  seg_url      : string;
  seg_duration : Z
}.

Inductive PlayMode : Type := live | catchup.

(** [EPGData = Record<string, EPGProgram[]>]. *)
Abbreviation EPGData := (gmap string (list EPGProgram)).

(** ** [lib/m3u-parser.ts]: [parseM3U] *)

Module M3uParser.
Import JSString.

(** [Partial<Channel>], the fields [parseM3U] fills. *)
Record Meta : Type := mkMeta {
  m_tvgId         : option string;
  m_tvgName       : option string;
  m_logo          : option string;
  m_group         : option string;
  m_catchup       : option string;
  m_catchupSource : option string;
  m_name          : option string
}.

Definition emptyMeta : Meta := mkMeta None None None None None None None.

(** The variables of the loop. *)
Record Vars : Type := mkVars {
  v_channels    : list Channel;
  v_groups      : list string;
  v_currentMeta : Meta;
  v_tvgUrl      : option string
}.

Definition initial : Vars := mkVars [] [] emptyMeta None.

(** The metadata of an [#EXTINF:] line (lines 36-79); [infLine] is the
    line without its first eight code units. *)
Definition parseExtinf (infLine : string) : Meta :=
  {| m_tvgId := matchAttr "tvg-id" infLine;
     m_tvgName := matchAttr "tvg-name" infLine;
     m_logo := matchAttr "tvg-logo" infLine;
     m_group := matchAttr "group-title" infLine;
     m_catchup := matchAttr "catchup" infLine;
     m_catchupSource := matchAttr "catchup-source" infLine;
     m_name :=
       match pop (splitComma infLine) with
       | Some nameMatch =>
           if isEmpty nameMatch then None else Some (trim nameMatch)
       | None => None
       end |}.

(** The object literal of lines 89-99, for the pending metadata, the URL
    line and the number of channels pushed so far. *)
Definition makeChannel (currentMeta : Meta) (trimmedLine : string) (count : nat)
  : Channel :=
  {| ch_id :=
       JS.orDefault (JS.orElse (m_tvgId currentMeta) (m_name currentMeta))
         ("channel-" ++ JS.showNat count);
     ch_name :=
       JS.orDefault (m_name currentMeta) ("Channel " ++ JS.showNat (count + 1));
     ch_group := JS.orDefault (m_group currentMeta) "Default";
     ch_url := trimmedLine;
     ch_logo := m_logo currentMeta;
     ch_tvgId := m_tvgId currentMeta;
     ch_tvgName := m_tvgName currentMeta;
     ch_catchup := m_catchup currentMeta;
     ch_catchupSource := m_catchupSource currentMeta |}.

(** One turn of [for (const line of lines)]. *)
Definition step (vars : Vars) (line : string) : Vars :=
  let trimmedLine := trim line in
  if isEmpty trimmedLine then vars
  else if startsWith "#EXTM3U" trimmedLine then
    match matchAttr "tvg-url" trimmedLine with
    | Some url => mkVars (v_channels vars) (v_groups vars) (v_currentMeta vars) (Some url)
    | None => vars
    end
  else if startsWith "#EXTINF:" trimmedLine then
    let meta := parseExtinf (dropChars 8 trimmedLine) in
    mkVars (v_channels vars)
      (match m_group meta with
       | Some g => setAdd g (v_groups vars)
       | None => v_groups vars
       end)
      meta (v_tvgUrl vars)
  else if startsWith "#" trimmedLine then vars
  else if JS.truthy (m_name (v_currentMeta vars)) then
    mkVars
      (v_channels vars
         ++ [makeChannel (v_currentMeta vars) trimmedLine (List.length (v_channels vars))])
      (v_groups vars) emptyMeta (v_tvgUrl vars)
  else vars.

Definition run (lines : list string) : Vars := fold_left step lines initial.

(** [parseM3U(m3uContent)]. *)
Definition parseM3U (m3uContent : string) : M3UMetadata :=
  let vars := run (splitLines m3uContent) in
  {| md_tvgUrl := v_tvgUrl vars;
     md_channels := v_channels vars;
     md_groups := JS.sortBy compareStrings (v_groups vars) |}.

End M3uParser.

(** ** [App.tsx], the [App] component: the merged programme list *)

Module AppComponent.

(** Lines 63-66: the channel's programmes followed by the fallback blocks
    generated from them, sorted by start.  The source passes 48 for the
    lookback; it is left as an argument here. *)
Definition mergeFallback (now : Z) (programs : list EPGProgram)
  (channelId : string) (lookbackHours : Z) : list EPGProgram :=
  JS.sortBy EpgParser.byStart
    (programs ++ EpgParser.generateFallbackPrograms now programs channelId lookbackHours).

Definition allPrograms (now : Z) (programs : list EPGProgram) (channelId : string)
  : list EPGProgram :=
  mergeFallback now programs channelId 48.

(** Lines 75-77: [allPrograms.find(p => p.start <= now && p.end > now)
    || null], at the instant the effect read from the clock. *)
Definition airsAt (t : JS.Date) (p : EPGProgram) : bool :=
  JS.le (prog_start p) t && JS.gt (prog_end p) t.

Definition findCurrentProgram (allPrograms : list EPGProgram) (now : JS.Date)
  : option EPGProgram :=
  find (airsAt now) allPrograms.

End AppComponent.

(** ** Helpers of [lib/epg-parser] that the player page imports

    The player page imports [getEPGChannelId] and [getCurrentProgram] from
    [lib/epg-parser]; the file under [src/] does not define them. *)

Module EpgLookup.

(** Modelled from the spec: the three identities [getEPGChannelId] tries,
    in the order of section 4.3: the channel's source identifier, then its
    source display name, then its playlist display title.  An identity the
    channel does not have is not tried. *)
Definition candidateKeys (channel : Channel) : list string :=
  option_list (ch_tvgId channel) ++ option_list (ch_tvgName channel)
    ++ [ch_name channel].

(** Modelled from the spec: [k] exists as a key in the index. *)
Definition isKey (epgData : EPGData) (k : string) : bool :=
  bool_decide (is_Some (epgData !! k)).

(** Modelled from the spec: [getEPGChannelId(channel, epgData)] is not in
    the sources.  Section 4.3: return the first of these three that exists
    as a key in the index, or none if none match. *)
Definition getEPGChannelId (channel : Channel) (epgData : EPGData)
  : option string :=
  find (isKey epgData) (candidateKeys channel).


End EpgLookup.

(** ** [App.tsx], second document: the player page *)

Module PlayerPage.

(** A [Channel] object of the heap.  The page compares channels with
    [===], which on objects is identity: an object is its address
    together with its content, and the content is never written after
    the object literal of [parseM3U] created it. *)
Record ChannelObj : Type := mkObj {
  addr : nat;
  chan : Channel
}.

Definition sameObject (a b : ChannelObj) : bool := Nat.eqb (addr a) (addr b).

(** [metadata] as the page holds it: the channels are objects. *)
Record Metadata : Type := mkPageMetadata {
  tvgUrl   : option string;
  channels : list ChannelObj;
  groups   : list string
}.

(** The objects of one [parseM3U] result: one new object per channel,
    at consecutive addresses from [base]. *)
Definition allocate (base : nat) (cs : list Channel) : list ChannelObj :=
  imap (fun i c => mkObj (base + i) c) cs.

Definition ofParsed (base : nat) (parsed : M3UMetadata) : Metadata :=
  {| tvgUrl := md_tvgUrl parsed;
     channels := allocate base (md_channels parsed);
     groups := md_groups parsed |}.

(** The [useState] cells the modelled handlers read or write. *)
Record State : Type := mkState {
  metadata          : option Metadata;
  epgData           : EPGData;
  currentChannel    : option ChannelObj;
  playMode          : PlayMode;
  playbackSegments  : list MediaSegment;
  catchupTailOffset : Z;
  streamStartTime   : JS.Date;
  currentVideoTime  : Q
}.

Definition setStreamStartTime (d : JS.Date) (st : State) : State :=
  mkState (metadata st) (epgData st) (currentChannel st) (playMode st)
    (playbackSegments st) (catchupTailOffset st) d (currentVideoTime st).

Definition setCurrentChannel (c : option ChannelObj) (st : State) : State :=
  mkState (metadata st) (epgData st) c (playMode st)
    (playbackSegments st) (catchupTailOffset st) (streamStartTime st)
    (currentVideoTime st).

Definition setPlaybackSegments (segs : list MediaSegment) (st : State) : State :=
  mkState (metadata st) (epgData st) (currentChannel st) (playMode st)
    segs (catchupTailOffset st) (streamStartTime st) (currentVideoTime st).

Definition setPlayMode (m : PlayMode) (st : State) : State :=
  mkState (metadata st) (epgData st) (currentChannel st) m
    (playbackSegments st) (catchupTailOffset st) (streamStartTime st)
    (currentVideoTime st).

(** [handleVideoSeek] (lines 320-334). *)
Definition handleVideoSeek (now : Z) (seekTime : JS.Date) (st : State) : State :=
  if JS.gt (JS.getTime seekTime) (Some (now - 30 * 1000)) then
    if JS.lt (streamStartTime st) seekTime
    then setStreamStartTime (Some now) st
    else setStreamStartTime (Some (now - 30 * 1000)) st
  else setStreamStartTime seekTime st.

(** [selectChannel] (lines 336-339); the argument is what the array
    access of the caller produced. *)
Definition selectChannel (now : Z) (channel : option ChannelObj) (st : State)
  : State :=
  setStreamStartTime (Some now) (setCurrentChannel channel st).

Inductive NavTarget : Type :=
| prev
| next
| position (n : Z).

(** [arr.findIndex(ch => ch === currentChannel)], counting from [i]. *)
Fixpoint findIndexFrom (i : Z) (cur : ChannelObj) (arr : list ChannelObj) : Z :=
  match arr with
  | [] => -1
  | ch :: rest => if sameObject ch cur then i else findIndexFrom (i + 1) cur rest
  end.

Definition findIndex (cur : ChannelObj) (arr : list ChannelObj) : Z :=
  findIndexFrom 0 cur arr.

(** [handleChannelNavigate] (lines 348-373). *)
Definition handleChannelNavigate (now : Z) (target : NavTarget) (st : State)
  : State :=
  match metadata st with
  | None => st
  | Some md =>
    let len := Z.of_nat (List.length (channels md)) in
    if len =? 0 then st else
    match target with
    | position n =>
        match JS.at_ (channels md) (n - 1) with
        | Some channel => selectChannel now (Some channel) st
        | None => st
        end
    | _ =>
        match currentChannel st with
        | None => st
        | Some cur =>
          let currentIndex := findIndex cur (channels md) in
          let nextIndex :=
            match target with
            | prev => if 0 <? currentIndex then currentIndex - 1 else len - 1
            | _ => if currentIndex <? len - 1 then currentIndex + 1 else 0
            end in
          selectChannel now (JS.at_ (channels md) nextIndex) st
        end
    end
  end.

Section PlaybackEffect.

(** [buildCatchupSegments] is imported from [lib/m3u-parser] but is not
    in the sources: the effect is modelled for an arbitrary builder,
    which may return segments or throw. *)
Variable buildCatchupSegments :
  Channel -> JS.Date -> Z -> JS.Outcome (list MediaSegment).

(** The effect of lines 295-318. *)
Definition playbackEffect (now : Z) (st : State) : JS.Outcome State :=
  match currentChannel st with
  | None => JS.Returned st
  | Some co =>
    let currentChannel := chan co in
    if JS.gt (JS.getTime (streamStartTime st)) (Some (now - 3000)) then
      JS.Returned (setPlayMode live
        (setPlaybackSegments [mkSegment (ch_url currentChannel) 0] st))
    else if negb (JS.truthy (ch_catchup currentChannel))
            || negb (JS.truthy (ch_catchupSource currentChannel)) then
      JS.Returned st
    else
      match buildCatchupSegments currentChannel (streamStartTime st)
              (catchupTailOffset st) with
      | JS.Returned segs =>
          JS.Returned (setPlayMode catchup (setPlaybackSegments segs st))
      | JS.Thrown m => JS.Thrown m
      end
  end.

End PlaybackEffect.



End PlayerPage.

(** ** Vocabulary of the specification *)

(** The instant [t] lies in the half-open interval [[start, end)] of [p],
    with the comparisons of the language. *)
Definition covers (p : EPGProgram) (t : Z) : Prop :=
  JS.le (prog_start p) (Some t) = true /\ JS.lt (Some t) (prog_end p) = true.

(** Two entries intersect when some instant lies in both intervals. *)
Definition intersects (p q : EPGProgram) : Prop :=
  exists t : Z, covers p t /\ covers q t.

(** Neighbours [x], [y] that [sort] with comparator [cmp] leaves in this
    order. *)
Definition inOrder {A : Type} (cmp : A -> A -> option Z) (x y : A) : Prop :=
  JS.positive (cmp x y) = false.

(** A catalog of distinct channel objects. *)
Definition distinctObjects (l : list PlayerPage.ChannelObj) : Prop :=
  NoDup (PlayerPage.addr <$> l).




(** The value of the group-title attribute that the metadata line [line]
    carries, if [line] is a metadata line and carries one. *)
Definition groupTitleOf (line : string) : option string :=
  let trimmed := JSString.trim line in
  if JSString.startsWith "#EXTINF:" trimmed
  then JSString.matchAttr "group-title" (JSString.dropChars 8 trimmed)
  else None.

(** The group-title values seen in a playlist text, in order of
    appearance. *)
Definition groupTitlesSeen (m3uContent : string) : list string :=
  omap groupTitleOf (JSString.splitLines m3uContent).

(** Strictly ascending in the order of code units. *)
Definition ascending (l : list string) : Prop :=
  Sorted (fun a b => String.compare a b = Lt) l.

(** The pending metadata of the parser loop is empty or comes from a
    metadata line. *)
Definition pendingFromExtinf (v : M3uParser.Vars) : Prop :=
  M3uParser.v_currentMeta v = M3uParser.emptyMeta
  \/ exists infLine, M3uParser.v_currentMeta v = M3uParser.parseExtinf infLine.

(** Every channel pushed so far was built, at its own index, from the
    metadata of a metadata line that has a title. *)
Definition channelsFromExtinf (v : M3uParser.Vars) : Prop :=
  forall (i : nat) (c : Channel),
    M3uParser.v_channels v !! i = Some c ->
    exists infLine url,
      c = M3uParser.makeChannel (M3uParser.parseExtinf infLine) url i
      /\ JS.truthy (M3uParser.m_name (M3uParser.parseExtinf infLine)) = true.

(** An entry whose end is strictly after its start. *)
Definition endAfterStart (p : EPGProgram) : Prop :=
  JS.lt (prog_start p) (prog_end p) = true.

(** Section 3, read on [parseEPG]: every entry produced ends strictly
    after it starts. *)
Definition parsedEntriesEndAfterStart : Prop :=
  forall (tz : Z) (clock : nat -> Z) (items : list EpgParser.Programme)
         (epgData : EPGData) (key : string) (programs : list EPGProgram)
         (p : EPGProgram),
    EpgParser.parseEPG tz clock items = JS.Returned epgData ->
    epgData !! key = Some programs ->
    In p programs ->
    endAfterStart p.

(** The entries of [epgData] are the entries of elements of [items] before
    position [bound], each under the channel key of its element. *)
Definition entriesFromItems (tz : Z) (clock : nat -> Z)
  (items : list EpgParser.Programme) (bound : nat) (epgData : EPGData) : Prop :=
  forall (key : string) (programs : list EPGProgram) (p : EPGProgram),
    epgData !! key = Some programs ->
    In p programs ->
    exists (i : nat) (item : EpgParser.Programme),
      (i < bound)%nat
      /\ items !! i = Some item
      /\ key = EpgParser.channelOf item
      /\ p = EpgParser.programmeEntry tz clock i item.

(** ** Sample data *)

Definition sample_now : Z := 1704103200000.

Definition news_channel : PlayerPage.ChannelObj :=
  PlayerPage.mkObj 0
    (mkChannel "news1" "News HD" "Info" "http://x/1" None (Some "news1") None None None).

Definition shifted_state : PlayerPage.State :=
  PlayerPage.mkState None ∅ (Some news_channel) live [] 0
    (Some (sample_now - 3600000)) 0%Q.

(** A real entry from 06:30 to 07:30 UTC on 1 January 2024; [sample_now] is
    10:00 UTC of that day. *)
Definition c1_real : EPGProgram :=
  mkProgram "news1-1704090600000" "News" (Some 1704090600000) (Some 1704094200000).

Definition c3_state : PlayerPage.State :=
  PlayerPage.mkState None ∅ (Some news_channel) catchup [] 0
    (Some (sample_now - 100000)) 0%Q.


Definition c4_show : EPGProgram :=
  mkProgram "news1-1704096000000" "Morning News"
    (Some 1704096000000) (Some 1704099600000).


Definition c5_channel : Channel :=
  mkChannel "a" "c" "Default" "http://x/1" None (Some "a") (Some "b") None None.

Definition c7_final : PlayerPage.ChannelObj :=
  PlayerPage.mkObj 2
    (mkChannel "film" "Film" "Default" "http://x/3" None None None None None).

Definition c7_metadata : PlayerPage.Metadata :=
  PlayerPage.mkPageMetadata None
    [ news_channel;
      PlayerPage.mkObj 1
        (mkChannel "sport" "Sport" "Default" "http://x/2" None None None None None);
      c7_final ]
    ["Info"].

Definition c7_state : PlayerPage.State :=
  PlayerPage.mkState (Some c7_metadata) ∅ (Some c7_final) live [] 0
    (Some sample_now) 0%Q.

Definition newline : string := String JSString.LF EmptyString.
Definition dq : string := String JSString.quote EmptyString.

(** One metadata and URL pair, as in the round trip of section 8. *)
Definition c6_playlist : string :=
  "#EXTM3U" ++ newline
  ++ "#EXTINF:-1 tvg-id=" ++ dq ++ "news1" ++ dq
  ++ " group-title=" ++ dq ++ "Info" ++ dq ++ ",News HD" ++ newline
  ++ "http://x/1".

(** A channel without a group-title attribute. *)
Definition c10_playlist : string :=
  "#EXTINF:-1,Solo" ++ newline ++ "http://x/2".

(** A programme element whose stop is two hours before its start. *)
Definition c8_items : list EpgParser.Programme :=
  [ EpgParser.mkProgramme (Some "news1") (Some "20240101080000")
      (Some "20240101060000") (Some "News") ].

Definition c8_entry : EPGProgram :=
  mkProgram "news1-1704096000000" "News" (Some 1704096000000) (Some 1704088800000).

(** A well-formed element and its entry. *)
Definition c8_item_ok : EpgParser.Programme :=
  EpgParser.mkProgramme (Some "news1") (Some "20240101060000 +0000")
    (Some "20240101080000 +0000") (Some "Morning News").

Definition c8_entry_ok : EPGProgram :=
  mkProgram "news1-1704088800000" "Morning News"
    (Some 1704088800000) (Some 1704096000000).

(* ===================================================================== *)
(** * Part I, continued: more of the sources, and their vocabulary        *)
(* ===================================================================== *)

(** ** Vocabulary for the gap-fill synthesizer and the guide *)

(** An instant on a two-hour boundary counted from the epoch. *)
Definition onEvenHour (c : Z) : Prop := c mod EpgParser.TWO_HOURS_MS = 0.

(** The instant at which the lookback window of [generateFallbackPrograms]
    opens, before rounding. *)
Definition windowStart (now lookbackHours : Z) : Z :=
  now - lookbackHours * 60 * 60 * 1000.

(** The entry [a] has ended when [b] starts. *)
Definition endsBeforeStartOf (a b : EPGProgram) : Prop :=
  exists x y, prog_end a = Some x /\ prog_start b = Some y /\ x <= y.

(** The start of [a] is not after the start of [b]. *)
Definition startsNoLater (a b : EPGProgram) : Prop :=
  JS.le (prog_start a) (prog_start b) = true.

(** Every entry has a valid start date. *)
Definition startsValid (l : list EPGProgram) : Prop :=
  Forall (fun p => is_Some (prog_start p)) l.

(** The start of the first block: the expression assigned to
    [currentStart] at line 87 of [lib/epg-parser.ts]. *)
Definition firstBlockStart (now lookbackHours : Z) : Z :=
  let startTime := now - lookbackHours * 60 * 60 * 1000 in
  let hoursSinceEpoch := startTime / (60 * 60 * 1000) in
  let roundedHours := hoursSinceEpoch / 2 * 2 in
  roundedHours * 60 * 60 * 1000.

(** A time on the morning of 1 January 2024 that is not on an even hour
    (10:00:01 UTC), and three real entries with valid starts. *)
Definition offBoundary_now : Z := 1704103201000.

Definition late_show : EPGProgram :=
  mkProgram "news1-1704099600000" "Late"
    (Some 1704099600000) (Some 1704106800000).


(** The channel of the element names a property of [Object.prototype]. *)
Definition inheritedKey (item : EpgParser.Programme) : Prop :=
  In (EpgParser.channelOf item) JS.objectPrototypeKeys.


(** No key the object owns names a property of [Object.prototype]. *)
Definition noInheritedKey (epgData : EPGData) : Prop :=
  forall key, is_Some (epgData !! key) -> ~ In key JS.objectPrototypeKeys.

(** Every code unit of [s] satisfies [f]. *)
Fixpoint allChars (f : ascii -> bool) (s : string) : bool :=
  match s with
  | EmptyString => true
  | String c r => f c && allChars f r
  end.

Definition noWhiteSpace (s : string) : Prop :=
  allChars (fun c => negb (JSString.isWhiteSpace c)) s = true.

(** Two elements of the channel [news1], the later one first. *)
Definition two_programmes : list EpgParser.Programme :=
  [ EpgParser.mkProgramme (Some "news1") (Some "20240101080000")
      (Some "20240101100000") (Some "Late");
    EpgParser.mkProgramme (Some "news1") (Some "20240101060000")
      (Some "20240101080000") (Some "Early") ].

Definition two_programmes_sorted : list EPGProgram :=
  [ mkProgram "news1-1704088800000" "Early"
      (Some 1704088800000) (Some 1704096000000);
    mkProgram "news1-1704096000000" "Late"
      (Some 1704096000000) (Some 1704103200000) ].

(** ** Vocabulary for the playlist parser *)

(** [s] has no white space at either end. *)
Definition trimmed (s : string) : Prop := JSString.trim s = s.


Definition noQuote (s : string) : Prop :=
  allChars (fun c => negb (Ascii.eqb c JSString.quote)) s = true.

Definition noLineBreak (s : string) : Prop :=
  allChars (fun c => negb (Ascii.eqb c JSString.LF) && negb (Ascii.eqb c JSString.CR)) s
  = true.

(** A stream address as the parser accepts one: not empty, not a comment. *)
Definition plainUrl (s : string) : Prop :=
  JSString.isEmpty s = false /\ JSString.startsWith "#" s = false.

(** A line the loop passes over: blank, or a comment that is neither a
    header nor a metadata line. *)
Definition ignoredLine (line : string) : bool :=
  let t := JSString.trim line in
  JSString.isEmpty t
  || (JSString.startsWith "#" t
      && negb (JSString.startsWith "#EXTM3U" t)
      && negb (JSString.startsWith "#EXTINF:" t)).

Definition isExtinfLine (line : string) : bool :=
  JSString.startsWith "#EXTINF:" (JSString.trim line).

Definition isUrlLine (line : string) : bool :=
  let t := JSString.trim line in
  negb (JSString.isEmpty t) && negb (JSString.startsWith "#" t).

(** The EPG address a header line declares, if [line] is a header line and
    declares one. *)
Definition headerUrl (line : string) : option string :=
  let t := JSString.trim line in
  if JSString.startsWith "#EXTM3U" t then JSString.matchAttr "tvg-url" t else None.

(** [lines.join(sep)]. *)
Fixpoint joinLines (sep : string) (lines : list string) : string :=
  match lines with
  | [] => EmptyString
  | [l] => l
  | l :: rest => l ++ sep ++ joinLines sep rest
  end.

(** An attribute as it is written on a metadata line. *)
Definition writeAttr (key value : string) : string :=
  key ++ String "="%char (String JSString.quote EmptyString)
  ++ value ++ String JSString.quote EmptyString.

(** The URLs of the channels pushed so far are plain and trimmed. *)
Definition urlsPlain (v : M3uParser.Vars) : Prop :=
  forall c, In c (M3uParser.v_channels v) ->
    plainUrl (ch_url c) /\ trimmed (ch_url c).

(** The group of the pending metadata and the groups of the channels
    pushed so far are in the set of groups, the default group apart. *)
Definition groupsKnown (v : M3uParser.Vars) : Prop :=
  (forall g, M3uParser.m_group (M3uParser.v_currentMeta v) = Some g ->
             In g (M3uParser.v_groups v))
  /\ (forall c, In c (M3uParser.v_channels v) ->
        ch_group c = "Default" \/ In (ch_group c) (M3uParser.v_groups v)).

(** The metadata of the pending record, counted as a channel to come. *)
Definition pendingCount (v : M3uParser.Vars) : nat :=
  if JS.truthy (M3uParser.m_name (M3uParser.v_currentMeta v)) then 1 else 0.

(** A playlist with a blank line, a comment and a channel, and the same
    without the lines the loop passes over. *)
Definition commented_playlist : string :=
  "#EXTINF:-1,Solo" ++ newline ++ newline ++ "# note" ++ newline ++ "http://x/2".

(** ** [App.tsx]: restoring the last channel, and the filter of the guide *)

Module Startup.

(** The player page, [loadPlaylist] (lines 432-445): the channel object
    handed to [selectChannel] after a parse; [None] when the catalog is
    empty and nothing is selected.  [lastChannelId] is what
    [getLastChannelId()] returned ([None] is [null]). *)
Definition channelToSelect (channels : list PlayerPage.ChannelObj)
  (lastChannelId : option string) : option PlayerPage.ChannelObj :=
  match channels with
  | [] => None
  | first :: _ =>
      match lastChannelId with
      | Some id =>
          if JS.truthy lastChannelId then
            match find (fun ch => String.eqb (ch_id (PlayerPage.chan ch)) id) channels with
            | Some lastChannel => Some lastChannel
            | None => Some first
            end
          else Some first
      | None => Some first
      end
  end.

(** The [App] component, the effect of lines 38-52: the channel it makes
    current; [None] when it leaves the state as it is. *)
Definition initialChannel (channels : list Channel) (lastChannelId : option string)
  : option Channel :=
  match channels with
  | [] => None
  | first :: _ =>
      match lastChannelId with
      | Some id =>
          if JS.truthy lastChannelId
          then find (fun c => String.eqb (ch_id c) id) channels
          else Some first
      | None => Some first
      end
  end.

(** [if (x) ids.add(x)] for an optional string. *)
Definition addIfTruthy (x : option string) (ids : gset string) : gset string :=
  match x with
  | Some k => if JS.truthy x then ids ∪ {[ k ]} else ids
  | None => ids
  end.

(** The player page, lines 403-408: the body of the [forEach], and the set
    [validChannelIds] it builds. *)
Definition addChannelIds (ids : gset string) (channel : Channel) : gset string :=
  addIfTruthy (ch_tvgName channel) (addIfTruthy (ch_tvgId channel) ids)
    ∪ {[ ch_name channel ]}.

Definition validChannelIds (channels : list Channel) : gset string :=
  fold_left addChannelIds channels ∅.

End Startup.

(** ** Vocabulary for the player page *)

(** [c] is the first element of [l] that satisfies [P]. *)
Definition firstWith {A : Type} (P : A -> Prop) (c : A) (l : list A) : Prop :=
  exists front back, l = (front ++ c :: back)%list /\ P c /\ forall x, In x front -> ~ P x.

(** The channel has the identifier [k]; no element of the list has it. *)
Definition hasId (k : string) (c : Channel) : Prop := ch_id c = k.

Definition unknownId {A : Type} (channelOf : A -> Channel) (k : string) (l : list A) : Prop :=
  forall c, In c l -> ~ hasId k (channelOf c).

(** One of the three identities of a channel: its name, or a truthy
    tvg-id or tvg-name. *)
Definition identityOf (c : Channel) (k : string) : Prop :=
  k = ch_name c
  \/ (ch_tvgId c = Some k /\ k <> "")
  \/ (ch_tvgName c = Some k /\ k <> "").

(** The state after the playback effect put the channel [c] on live. *)
Definition playsLive (c : Channel) (st : PlayerPage.State) : Prop :=
  PlayerPage.playMode st = live
  /\ PlayerPage.playbackSegments st = [mkSegment (ch_url c) 0].

(** A channel with catchup capability. *)
Definition hasCatchup (c : Channel) : Prop :=
  JS.truthy (ch_catchup c) = true /\ JS.truthy (ch_catchupSource c) = true.

(** The cells of the page other than the stream start are the same. *)
Definition sameButStreamStart (a b : PlayerPage.State) : Prop :=
  PlayerPage.metadata a = PlayerPage.metadata b
  /\ PlayerPage.epgData a = PlayerPage.epgData b
  /\ PlayerPage.currentChannel a = PlayerPage.currentChannel b
  /\ PlayerPage.playMode a = PlayerPage.playMode b
  /\ PlayerPage.playbackSegments a = PlayerPage.playbackSegments b
  /\ PlayerPage.catchupTailOffset a = PlayerPage.catchupTailOffset b
  /\ PlayerPage.currentVideoTime a = PlayerPage.currentVideoTime b.

(** A channel with catchup, at an address outside the sample catalog, and
    two builders that differ only on channels without catchup. *)
Definition catchup_channel : PlayerPage.ChannelObj :=
  PlayerPage.mkObj 7
    (mkChannel "arte" "Arte" "Default" "http://x/7" None None None
       (Some "default") (Some "http://x/7?from={utc}")).

Definition sample_segments : list MediaSegment := [mkSegment "http://x/7?from=0" 3600].

Definition strict_builder (c : Channel) (start : JS.Date) (offset : Z)
  : JS.Outcome (list MediaSegment) :=
  if JS.truthy (ch_catchup c) && JS.truthy (ch_catchupSource c)
  then JS.Returned sample_segments
  else JS.Thrown "no catchup".

Definition lenient_builder (c : Channel) (start : JS.Date) (offset : Z)
  : JS.Outcome (list MediaSegment) :=
  JS.Returned sample_segments.

Definition sport_channel : PlayerPage.ChannelObj :=
  PlayerPage.mkObj 1
    (mkChannel "sport" "Sport" "Default" "http://x/2" None None None None None).

Definition c7_middle_state : PlayerPage.State :=
  PlayerPage.mkState (Some c7_metadata) ∅ (Some sport_channel) live [] 0
    (Some sample_now) 0%Q.

Definition c7_catalog : list Channel := PlayerPage.chan <$> PlayerPage.channels c7_metadata.

Definition c7_objects : list PlayerPage.ChannelObj := PlayerPage.channels c7_metadata.

Definition foreign_state : PlayerPage.State :=
  PlayerPage.mkState (Some c7_metadata) ∅ (Some catchup_channel) live [] 0
    (Some sample_now) 0%Q.

(** ** [App.tsx] and [components/player/Player.tsx]: the player state *)

Module PlayerComponent.

(** [PlayerState], as the [useState] of lines 21-28 of [App.tsx] fills it.
    The volume comes from [parseInt] and may be NaN ([None]). *)
Record PlayerState : Type := mkPlayerState {
  currentChannel : option Channel;
  playMode       : PlayMode;
  currentTime    : JS.Date;
  isPlaying      : bool;
  volume         : option Z;
  isMuted        : bool
}.

Definition initialState (now : Z) : PlayerState :=
  mkPlayerState None live (Some now) true (Some 100) false.

(** [Partial<PlayerState>]: the fields an update carries. *)
Record Updates : Type := mkUpdates {
  u_currentChannel : option (option Channel);
  u_playMode       : option PlayMode;
  u_currentTime    : option JS.Date;
  u_isPlaying      : option bool;
  u_volume         : option (option Z);
  u_isMuted        : option bool
}.

Definition noUpdates : Updates := mkUpdates None None None None None None.

(** [updatePlayerState] (lines 110-112): [{ ...prev, ...updates }]. *)
Definition updatePlayerState (updates : Updates) (prev : PlayerState) : PlayerState :=
  mkPlayerState
    (default (currentChannel prev) (u_currentChannel updates))
    (default (playMode prev) (u_playMode updates))
    (default (currentTime prev) (u_currentTime updates))
    (default (isPlaying prev) (u_isPlaying updates))
    (default (volume prev) (u_volume updates))
    (default (isMuted prev) (u_isMuted updates)).

(** [handleChannelSelect] (lines 83-90 of [App.tsx]). *)
Definition handleChannelSelect (now : Z) (channel : Channel) (prev : PlayerState)
  : PlayerState :=
  mkPlayerState (Some channel) live (Some now) (isPlaying prev) (volume prev)
    (isMuted prev).

(** [handleProgramSelect] (lines 93-99 of [App.tsx]). *)
Definition handleProgramSelect (start end_ : JS.Date) (prev : PlayerState)
  : PlayerState :=
  mkPlayerState (currentChannel prev) catchup start (isPlaying prev) (volume prev)
    (isMuted prev).

(** [volume === 0]. *)
Definition isZero (x : option Z) : bool :=
  match x with Some v => v =? 0 | None => false end.

(** The handlers of [Player.tsx] (lines 124-151): each reads the [state]
    of the render and hands an update to [updateState]. *)
Definition handlePlayPause (state : PlayerState) : Updates :=
  mkUpdates None None None (Some (negb (isPlaying state))) None None.

Definition handleVolumeChange (newVolume : option Z) (state : PlayerState) : Updates :=
  mkUpdates None None None None (Some newVolume)
    (Some (if isZero newVolume then true
           else if isMuted state then false else isMuted state)).

Definition handleMuteToggle (state : PlayerState) : Updates :=
  mkUpdates None None None None None (Some (negb (isMuted state))).

Definition handleModeToggle (now : Z) (state : PlayerState) : Updates :=
  mkUpdates None
    (Some (match playMode state with live => catchup | catchup => live end))
    (Some (match playMode state with
           | live => Some (now - 3600 * 1000)
           | catchup => Some now
           end))
    None None None.

(** A handler called on the state of the current render. *)
Definition dispatch (handler : PlayerState -> Updates) (state : PlayerState)
  : PlayerState :=
  updatePlayerState (handler state) state.

(** [initPlayer], lines 40-45 of [Player.tsx]: the URL the player loads. *)
Definition playUrl (channel : Channel) (state : PlayerState) : string :=
  match playMode state with
  | catchup =>
      let catchupTime :=
        match JS.getTime (currentTime state) with
        | Some t => Some (t / 1000)
        | None => None
        end in
      ch_url channel ++ "?catchup=" ++ JS.showNumber catchupTime
  | live => ch_url channel
  end.

(** [App] renders the [Player] for the current channel, when there is one
    (lines 148-154 of [App.tsx]). *)
Definition loadedUrl (state : PlayerState) : option string :=
  match currentChannel state with
  | Some channel => Some (playUrl channel state)
  | None => None
  end.

End PlayerComponent.

(** A player on the sample channel, muted, at volume 40. *)
Definition muted_player : PlayerComponent.PlayerState :=
  PlayerComponent.mkPlayerState (Some (PlayerPage.chan news_channel)) live
    (Some sample_now) true (Some 40) true.


(* ===================================================================== *)
(** * Part II: properties                                                 *)
(* ===================================================================== *)

(** ** The embedding at work: the examples of section 8 *)

Example fallbackLoop_runs :
  map prog_start (EpgParser.fallbackLoop [] "c" 10 (-7200001))
  = [Some (-7200001); Some (-1)].
Proof. reflexivity. Qed.

(** Four hours of lookback at 10:00: the block from 06:00 meets the real
    entry, the block from 08:00 is synthesized. *)
Example generateFallbackPrograms_fills_the_gap :
  EpgParser.generateFallbackPrograms sample_now [c1_real] "news1" 4
  = [EpgParser.fallbackBlock "news1" 1704096000000 1704103200000].
Proof. reflexivity. Qed.

Example parseM3U_round_trip :
  M3uParser.parseM3U c6_playlist
  = mkMetadata None
      [mkChannel "news1" "News HD" "Info" "http://x/1" None (Some "news1")
         None None None]
      ["Info"].
Proof. reflexivity. Qed.

(** The title is what follows the last comma; a metadata line without a
    URL line is dropped; a URL line without metadata is ignored. *)
Example parseM3U_tolerant :
  map ch_name (md_channels (M3uParser.parseM3U
    ("#EXTINF:-1,lost" ++ newline ++ "#EXTINF:-1 tvg-name=" ++ dq ++ "A, B" ++ dq
     ++ ",One, Two" ++ newline ++ "http://x/1" ++ newline ++ "http://x/2")))
  = ["Two"].
Proof. reflexivity. Qed.

Example parseTime_reads_local_fields :
  EpgParser.parseTime 0 0 "20240101060000 +0800" = Some 1704088800000
  /\ EpgParser.parseTime 28800000 0 "20240101060000" = Some 1704060000000
  /\ EpgParser.parseTime 0 0 "202401010600" = Some 1704088800000
  /\ EpgParser.parseTime 0 0 "yesterday" = None.
Proof. repeat split; reflexivity. Qed.

(** Two entries given latest first come out sorted by start. *)
Example parseEPG_sorts_by_start :
  EpgParser.parseEPG 0 (fun _ => 0)
    [ EpgParser.mkProgramme (Some "news1") (Some "20240101080000")
        (Some "20240101100000") (Some "Late");
      EpgParser.mkProgramme (Some "news1") (Some "20240101060000")
        (Some "20240101080000") (Some "Early") ]
  = JS.Returned
      {[ "news1" :=
           [ mkProgram "news1-1704088800000" "Early"
               (Some 1704088800000) (Some 1704096000000);
             mkProgram "news1-1704096000000" "Late"
               (Some 1704096000000) (Some 1704103200000) ] ]}.
Proof. vm_compute. reflexivity. Qed.

(** A channel attribute that names a property of [Object.prototype] makes
    [parseEPG] throw. *)
Example parseEPG_throws_on_inherited_key :
  EpgParser.parseEPG 0 (fun _ => 0)
    [ EpgParser.mkProgramme (Some "constructor") (Some "20240101080000")
        (Some "20240101100000") None ]
  = JS.Thrown "TypeError: epgData[channelId].push is not a function".
Proof. reflexivity. Qed.

(** ** The gap-fill synthesizer *)

Section GapFill.
Import EpgParser.

Variables (existing : list EPGProgram) (channelId : string) (now : Z).

(** One turn of the loop. *)
Lemma fallbackLoop_unfold (ex : list EPGProgram) (cs : Z) :
  fallbackLoop ex channelId now cs =
  if cs <? now then
    if hasOverlap ex cs (cs + TWO_HOURS_MS)
    then fallbackLoop ex channelId now (cs + TWO_HOURS_MS)
    else fallbackBlock channelId cs (cs + TWO_HOURS_MS)
           :: fallbackLoop ex channelId now (cs + TWO_HOURS_MS)
  else [].
Proof.
  funelim (fallbackLoop ex channelId now cs).
  - destruct (Z.ltb_spec currentStart now); [reflexivity | lia].
  - destruct (Z.ltb_spec currentStart now); [lia | reflexivity].
Qed.

(** Every block the loop pushes is a two-hour block that failed the
    overlap test. *)
Lemma fallbackLoop_In (cs : Z) (s : EPGProgram) :
  In s (fallbackLoop existing channelId now cs) ->
  exists c, s = fallbackBlock channelId c (c + TWO_HOURS_MS)
            /\ hasOverlap existing c (c + TWO_HOURS_MS) = false
            /\ cs <= c < now.
Proof.
  funelim (fallbackLoop existing channelId now cs); [| intros []].
  destruct (hasOverlap existing currentStart _) eqn:Hov; simpl.
  - intros Hin. destruct (H _ Hin) as (c & ? & ? & ?).
    exists c. unfold TWO_HOURS_MS in *. repeat split; auto; lia.
  - intros [<- | Hin].
    + exists currentStart. repeat split; auto; lia.
    + destruct (H _ Hin) as (c & ? & ? & ?).
      exists c. unfold TWO_HOURS_MS in *. repeat split; auto; lia.
Qed.

(** A block that passed the three-clause test shares no instant with the
    entry tested. *)
Lemma overlapsBlock_false_disjoint (c : Z) (r : EPGProgram) (t : Z) :
  overlapsBlock c (c + TWO_HOURS_MS) r = false ->
  covers r t -> ~ (c <= t < c + TWO_HOURS_MS).
Proof.
  unfold overlapsBlock, covers, JS.gt, JS.ge, JS.le, JS.lt.
  destruct (prog_start r) as [rs|], (prog_end r) as [re|];
    intros Hov [Hs He]; try discriminate.
  apply orb_false_iff in Hov as [Hov H3].
  apply orb_false_iff in Hov as [H1 H2].
  apply andb_false_iff in H1, H2, H3.
  rewrite !Z.leb_gt, !Z.ltb_ge in *.
  apply Z.leb_le in Hs. apply Z.ltb_lt in He. lia.
Qed.

(** With every entry of [ex] and every block of the first run present in
    [ex2], a second run over [ex2] pushes nothing. *)
Lemma fallbackLoop_saturated (ex2 : list EPGProgram) (cs : Z) :
  incl existing ex2 ->
  incl (fallbackLoop existing channelId now cs) ex2 ->
  fallbackLoop ex2 channelId now cs = [].
Proof.
  intros Hex. funelim (fallbackLoop existing channelId now cs).
  - intros Hsyn. rewrite fallbackLoop_unfold.
    destruct (Z.ltb_spec currentStart now); [| reflexivity].
    assert (Hov2 : hasOverlap ex2 currentStart (currentStart + TWO_HOURS_MS) = true).
    { destruct (hasOverlap existing currentStart _) eqn:Hov.
      - apply existsb_exists in Hov as (p & Hp & Hpo).
        apply existsb_exists. exists p. split; [apply Hex, Hp | exact Hpo].
      - apply existsb_exists.
        exists (fallbackBlock channelId currentStart (currentStart + TWO_HOURS_MS)).
        split; [apply Hsyn; left; reflexivity |].
        unfold overlapsBlock, JS.gt, JS.ge, JS.le, JS.lt; simpl.
        replace (currentStart <=? currentStart) with true
          by (symmetry; apply Z.leb_le; lia).
        replace (currentStart <? currentStart + TWO_HOURS_MS) with true
          by (symmetry; apply Z.ltb_lt; unfold TWO_HOURS_MS; lia).
        reflexivity. }
    rewrite Hov2. apply H; [exact Hex |].
    destruct (hasOverlap existing currentStart _); [exact Hsyn |].
    intros p Hp. apply Hsyn. right. exact Hp.
  - intros _. rewrite fallbackLoop_unfold.
    destruct (Z.ltb_spec currentStart now); [lia | reflexivity].
Qed.

End GapFill.

(** ** Sorting *)

Section Sorting.
Context {A : Type} (cmp : A -> A -> option Z).

Hypothesis cmp_antisym :
  forall x y, JS.positive (cmp x y) = true -> JS.positive (cmp y x) = false.

Lemma insertBy_In (x : A) (l : list A) (y : A) :
  In y (JS.insertBy cmp x l) <-> y = x \/ In y l.
Proof.
  induction l as [|z l IH]; simpl.
  - intuition.
  - destruct (JS.positive (cmp x z)); simpl; rewrite ?IH; intuition.
Qed.

Lemma sortBy_In (l : list A) (y : A) : In y (JS.sortBy cmp l) <-> In y l.
Proof.
  induction l as [|z l IH]; simpl; [reflexivity |].
  rewrite insertBy_In, IH. intuition.
Qed.

Lemma insertBy_HdRel (x a : A) (l : list A) :
  inOrder cmp a x -> HdRel (inOrder cmp) a l -> HdRel (inOrder cmp) a (JS.insertBy cmp x l).
Proof.
  intros Hax Hl. destruct l as [|z l]; simpl; [constructor; exact Hax |].
  inversion Hl; subst.
  destruct (JS.positive (cmp x z)); constructor; assumption.
Qed.

Lemma insertBy_Sorted (x : A) (l : list A) :
  Sorted (inOrder cmp) l -> Sorted (inOrder cmp) (JS.insertBy cmp x l).
Proof.
  induction 1 as [|z l Hl IH Hz]; simpl.
  - repeat constructor.
  - destruct (JS.positive (cmp x z)) eqn:Hxz.
    + constructor; [exact IH |].
      apply insertBy_HdRel; [apply cmp_antisym, Hxz | exact Hz].
    + repeat constructor; assumption.
Qed.

Lemma sortBy_Sorted (l : list A) : Sorted (inOrder cmp) (JS.sortBy cmp l).
Proof.
  induction l; simpl; [constructor | apply insertBy_Sorted; assumption].
Qed.

(** Sorting a list whose neighbours are already in order changes
    nothing. *)
Lemma sortBy_of_Sorted (l : list A) : Sorted (inOrder cmp) l -> JS.sortBy cmp l = l.
Proof.
  induction 1 as [|z l Hl IH Hz]; simpl; [reflexivity |].
  rewrite IH. destruct Hz as [|y l' Hzy]; simpl; [reflexivity |].
  unfold inOrder in Hzy. rewrite Hzy. reflexivity.
Qed.

Lemma sortBy_idempotent (l : list A) :
  JS.sortBy cmp (JS.sortBy cmp l) = JS.sortBy cmp l.
Proof. apply sortBy_of_Sorted, sortBy_Sorted. Qed.

End Sorting.

Lemma byStart_antisym (x y : EPGProgram) :
  JS.positive (EpgParser.byStart x y) = true ->
  JS.positive (EpgParser.byStart y x) = false.
Proof.
  unfold EpgParser.byStart, JS.getTime, JS.sub, JS.positive.
  destruct (prog_start x), (prog_start y); try discriminate; try reflexivity.
  rewrite Z.ltb_lt, Z.ltb_ge. lia.
Qed.

(** C1.  Gap-fill non-overlap: whatever the real entries, the channel id,
    the lookback and the instant [now], no entry returned by
    [generateFallbackPrograms] shares an instant of its half-open interval
    [[start, end)] with the interval of a real entry of the input.  (The
    argument does not depend on where the window starts: it rests on the
    overlap test alone.) *)
Theorem gap_fill_non_overlap
  (now : Z) (existing : list EPGProgram) (channelId : string) (lookbackHours : Z)
  (s r : EPGProgram) :
  In s (EpgParser.generateFallbackPrograms now existing channelId lookbackHours) ->
  In r existing ->
  ~ intersects s r.
Proof.
  unfold EpgParser.generateFallbackPrograms.
  intros Hs Hr (t & [Hs1 Hs2] & Hrt).
  apply fallbackLoop_In in Hs as (c & -> & Hov & _).
  simpl in Hs1, Hs2. apply Z.leb_le in Hs1. apply Z.ltb_lt in Hs2.
  unfold EpgParser.hasOverlap in Hov.
  assert (Hr' : EpgParser.overlapsBlock c (c + EpgParser.TWO_HOURS_MS) r = false).
  { destruct (EpgParser.overlapsBlock c _ r) eqn:E; [| reflexivity].
    rewrite <- Hov. symmetry. apply existsb_exists. exists r. auto. }
  apply (overlapsBlock_false_disjoint c r t Hr' Hrt). lia.
Qed.

Lemma gap_fill_non_overlap_witness :
  ~ intersects (EpgParser.fallbackBlock "news1" 1704096000000 1704103200000) c1_real.
Proof.
  apply (gap_fill_non_overlap sample_now [c1_real] "news1" 4).
  - vm_compute. left. reflexivity.
  - left. reflexivity.
Defined.

(** C2.  Gap-fill idempotence: for a fixed [now], a second run of the
    synthesizer over the list that merges the real entries with the blocks
    of the first run, sorted by start, returns no block; merging again
    therefore yields the very same list. *)
Theorem gap_fill_idempotent
  (now : Z) (programs : list EPGProgram) (channelId : string) (lookbackHours : Z) :
  let combined := AppComponent.mergeFallback now programs channelId lookbackHours in
  EpgParser.generateFallbackPrograms now combined channelId lookbackHours = []
  /\ AppComponent.mergeFallback now combined channelId lookbackHours = combined.
Proof.
  intros combined.
  assert (Hnone :
    EpgParser.generateFallbackPrograms now combined channelId lookbackHours = []).
  { unfold EpgParser.generateFallbackPrograms.
    apply (fallbackLoop_saturated programs).
    - intros p Hp. apply sortBy_In, in_or_app. left. exact Hp.
    - intros p Hp. apply sortBy_In, in_or_app. right. exact Hp. }
  split; [exact Hnone |].
  unfold AppComponent.mergeFallback at 1. rewrite Hnone, app_nil_r.
  apply sortBy_idempotent, byStart_antisym.
Qed.

(** ** The player page: seeking *)

Section Seek.
Import PlayerPage.

Lemma streamStartTime_set (d : JS.Date) (st : State) :
  streamStartTime (setStreamStartTime d st) = d.
Proof. reflexivity. Qed.

(** C3.  Seek clamping.  With wall-clock now [N], stream start [s] and
    requested time [t]: when [t] is within the last 30 seconds of [N] the
    stream start becomes [N] if [s] is earlier than [t] and [N - 30 s]
    otherwise; when [t] is 30 seconds or more before [N] the stream start
    becomes [t].  In particular a seek to [N - 5 s] from a stream start
    of [N - 100 s] yields [N], and from [N - 1 s] yields [N - 30 s]. *)
Theorem seek_clamping (N s t : Z) (st : State) :
  streamStartTime st = Some s ->
  let effective := streamStartTime (handleVideoSeek N (Some t) st) in
  (N - 30000 < t -> s < t -> effective = Some N)
  /\ (N - 30000 < t -> t <= s -> effective = Some (N - 30000))
  /\ (t <= N - 30000 -> effective = Some t)
  /\ (t = N - 5000 -> s = N - 100000 -> effective = Some N)
  /\ (t = N - 5000 -> s = N - 1000 -> effective = Some (N - 30000)).
Proof.
  intros Hs effective. subst effective.
  unfold handleVideoSeek, JS.gt, JS.getTime. rewrite Hs. simpl JS.lt.
  replace (30 * 1000) with 30000 by reflexivity.
  destruct (Z.ltb_spec (N - 30000) t), (Z.ltb_spec s t);
    rewrite streamStartTime_set; repeat split; intros; solve [reflexivity | lia].
Qed.

Lemma seek_clamping_witness :
  streamStartTime (handleVideoSeek sample_now (Some (sample_now - 5000)) c3_state)
  = Some sample_now.
Proof.
  destruct (seek_clamping sample_now (sample_now - 100000) (sample_now - 5000) c3_state eq_refl)
    as (Hlater & _).
  apply Hlater; reflexivity.
Defined.

End Seek.

(** ** The player page: channel navigation *)

Section Navigation.
Import PlayerPage.

Lemma findIndexFrom_head (i : Z) (x : ChannelObj) (l : list ChannelObj) :
  findIndexFrom i x (x :: l) = i.
Proof. simpl. unfold sameObject. rewrite Nat.eqb_refl. reflexivity. Qed.

Lemma findIndexFrom_last (l : list ChannelObj) (i : Z) (x : ChannelObj) :
  addr x ∉ addr <$> l ->
  findIndexFrom i x (l ++ [x]) = i + Z.of_nat (List.length l).
Proof.
  revert i. induction l as [|y l IH]; intros i Hx.
  - simpl. unfold sameObject. rewrite Nat.eqb_refl. lia.
  - rewrite fmap_cons, not_elem_of_cons in Hx. destruct Hx as [Hne Hx].
    cbn [app findIndexFrom]. unfold sameObject.
    destruct (Nat.eqb_spec (addr y) (addr x)) as [E|_]; [congruence |].
    rewrite IH by exact Hx. cbn [List.length]. lia.
Qed.

Lemma at_first {A : Type} (x : A) (l : list A) : JS.at_ (x :: l) 0 = Some x.
Proof. reflexivity. Qed.

Lemma at_last {A : Type} (l : list A) (x : A) :
  JS.at_ (l ++ [x]) (Z.of_nat (List.length l)) = Some x.
Proof.
  unfold JS.at_. destruct (Z.ltb_spec (Z.of_nat (List.length l)) 0); [lia |].
  rewrite Nat2Z.id, nth_error_app2, Nat.sub_diag by lia. reflexivity.
Qed.

Lemma at_out_of_range {A : Type} (l : list A) (i : Z) :
  i < 0 \/ Z.of_nat (List.length l) <= i -> JS.at_ l i = None.
Proof.
  intros Hi. unfold JS.at_. destruct (Z.ltb_spec i 0); [reflexivity |].
  apply nth_error_None. lia.
Qed.

Lemma currentChannel_select (now : Z) (c : option ChannelObj) (st : State) :
  currentChannel (selectChannel now c st) = c.
Proof. reflexivity. Qed.

(** The channel array of a parse consists of distinct objects. *)
Lemma allocate_distinct (base : nat) (cs : list Channel) :
  distinctObjects (allocate base cs).
Proof.
  unfold distinctObjects.
  replace (addr <$> allocate base cs) with (seq base (List.length cs));
    [apply NoDup_seq |].
  unfold allocate. revert base.
  induction cs as [|c cs IH]; intros base; [reflexivity |].
  rewrite imap_cons, fmap_cons. cbn [List.length seq addr]. f_equal; [lia |].
  rewrite IH. f_equal. apply imap_ext. intros i c0 _. simpl. f_equal. lia.
Qed.

(** C7.  Channel navigation wraps around.  In a non-empty catalog (an
    array of distinct channel objects, as every parse produces),
    [next] from the last channel selects the first and [prev] from the
    first selects the last; a 1-based position outside [1 .. length]
    selects nothing: the state, hence the current channel, is
    unchanged. *)
Theorem navigation_wraps (now : Z) (st : State) (md : Metadata)
  (first final : ChannelObj) :
  metadata st = Some md ->
  distinctObjects (channels md) ->
  head (channels md) = Some first ->
  last (channels md) = Some final ->
  (currentChannel st = Some final ->
     currentChannel (handleChannelNavigate now next st) = Some first)
  /\ (currentChannel st = Some first ->
        currentChannel (handleChannelNavigate now prev st) = Some final)
  /\ (forall n : Z, n < 1 \/ Z.of_nat (List.length (channels md)) < n ->
        handleChannelNavigate now (position n) st = st).
Proof.
  intros Hmd Hdist Hfirst Hlast.
  unfold handleChannelNavigate. rewrite Hmd.
  destruct (channels md) as [|c0 rest] eqn:Hch; [discriminate |].
  injection Hfirst as ->.
  apply last_Some in Hlast as [front Hfront].
  assert (Hlen : Z.of_nat (List.length (first :: rest)) =
                 Z.of_nat (List.length front) + 1).
  { rewrite Hfront, length_app. simpl. lia. }
  destruct (Z.eqb_spec (Z.of_nat (List.length (first :: rest))) 0) as [E|_];
    [simpl in E; lia |].
  split; [| split].
  - intros ->. rewrite currentChannel_select.
    assert (Hidx : findIndex final (first :: rest) = Z.of_nat (List.length front)).
    { unfold findIndex. rewrite Hfront, findIndexFrom_last; [lia |].
      unfold distinctObjects in Hdist. rewrite Hfront, fmap_app in Hdist.
      apply NoDup_app in Hdist as (_ & Hsep & _).
      intros Hin. apply (Hsep _ Hin). simpl. left. }
    rewrite Hidx, Hlen.
    destruct (Z.ltb_spec (Z.of_nat (List.length front))
                (Z.of_nat (List.length front) + 1 - 1)); [lia |].
    apply at_first.
  - intros ->. rewrite currentChannel_select.
    unfold findIndex. rewrite findIndexFrom_head. simpl (0 <? 0).
    rewrite Hlen, Hfront.
    replace (Z.of_nat (List.length front) + 1 - 1)
      with (Z.of_nat (List.length front)) by lia.
    apply at_last.
  - intros n Hn. rewrite at_out_of_range; [reflexivity | lia].
Qed.

Lemma navigation_wraps_witness :
  currentChannel (handleChannelNavigate sample_now next c7_state) = Some news_channel.
Proof.
  refine (proj1 (navigation_wraps sample_now c7_state c7_metadata news_channel c7_final
                   eq_refl _ eq_refl eq_refl) eq_refl).
  unfold distinctObjects. compute_done.
Defined.

End Navigation.

(** ** The player page: the playback effect *)

Section Playback.
Import PlayerPage.




End Playback.

(** ** Resolving the programme on air *)

Section CurrentProgram.
Import PlayerPage.

Lemma airsAt_covers (t : Z) (p : EPGProgram) :
  AppComponent.airsAt (Some t) p = true <-> covers p t.
Proof.
  unfold AppComponent.airsAt, covers, JS.gt. rewrite andb_true_iff. reflexivity.
Qed.

(** The inline search of the [App] component: the first entry on air at
    [t], and nothing exactly when no entry is on air at [t]. *)
Lemma findCurrentProgram_spec (programs : list EPGProgram) (t : Z) :
  match AppComponent.findCurrentProgram programs (Some t) with
  | Some p => In p programs /\ covers p t
  | None => forall p, In p programs -> ~ covers p t
  end.
Proof.
  unfold AppComponent.findCurrentProgram.
  destruct (find _ programs) as [p|] eqn:Hf.
  - apply find_some in Hf as [Hin Hp]. split; [exact Hin | apply airsAt_covers, Hp].
  - intros p Hin Hc. apply airsAt_covers in Hc.
    rewrite (find_none _ _ Hf p Hin) in Hc. discriminate.
Qed.



End CurrentProgram.

(** ** The channel-to-guide resolver *)

Section Resolver.
Import EpgLookup.

Lemma isKey_true (index : EPGData) (k : string) :
  isKey index k = true <-> is_Some (index !! k).
Proof. unfold isKey. apply bool_decide_eq_true. Qed.

Lemma isKey_false (index : EPGData) (k : string) :
  ~ is_Some (index !! k) -> isKey index k = false.
Proof. unfold isKey. apply bool_decide_eq_false. Qed.

(** C5.  Fallback order of the resolver: the source identifier when it is
    a key of the index; otherwise the source display name when that is a
    key; otherwise the playlist title when that is a key; otherwise none.
    Each tier is reached by some channel and index. *)
Theorem resolver_fallback_order :
  (forall (channel : Channel) (index : EPGData),
     let has k := is_Some (index !! k) in
     let misses (field : option string) := forall k, field = Some k -> ~ has k in
     (forall a, ch_tvgId channel = Some a -> has a ->
        getEPGChannelId channel index = Some a)
     /\ (forall b, misses (ch_tvgId channel) -> ch_tvgName channel = Some b -> has b ->
           getEPGChannelId channel index = Some b)
     /\ (misses (ch_tvgId channel) -> misses (ch_tvgName channel) ->
           has (ch_name channel) ->
           getEPGChannelId channel index = Some (ch_name channel))
     /\ (misses (ch_tvgId channel) -> misses (ch_tvgName channel) ->
           ~ has (ch_name channel) ->
           getEPGChannelId channel index = None))
  /\ getEPGChannelId c5_channel {[ "a" := [] ]} = Some "a"
  /\ getEPGChannelId c5_channel {[ "b" := [] ]} = Some "b"
  /\ getEPGChannelId c5_channel {[ "c" := [] ]} = Some "c"
  /\ getEPGChannelId c5_channel {[ "d" := [] ]} = None.
Proof.
  split; [| repeat split; reflexivity].
  intros channel index has misses. subst has misses.
  unfold getEPGChannelId, candidateKeys.
  destruct (ch_tvgId channel) as [a|], (ch_tvgName channel) as [b|]; simpl;
    repeat split; intros;
    repeat match goal with
      | H : forall k, Some ?x = Some k -> _ |- _ => specialize (H x eq_refl)
      | H : Some _ = Some _ |- _ => injection H as <-
      | H : None = Some _ |- _ => discriminate H
      | H : is_Some (index !! ?k) |- _ => apply isKey_true in H; rewrite ?H
      | H : ~ is_Some (index !! ?k) |- _ => apply isKey_false in H; rewrite ?H
      end; try reflexivity.
Qed.

Lemma resolver_fallback_order_witness :
  getEPGChannelId c5_channel {[ "b" := [c4_show] ]} = Some "b".
Proof.
  destruct resolver_fallback_order as [Horder _].
  destruct (Horder c5_channel {[ "b" := [c4_show] ]}) as (_ & Hname & _).
  apply Hname.
  - intros k [= <-]. vm_compute. intros [x Hx]. discriminate Hx.
  - reflexivity.
  - vm_compute. eexists. reflexivity.
Defined.

End Resolver.

(** ** The playlist parser *)

(** Case analysis on every test and optional value a goal branches on. *)
Ltac split_branches :=
  repeat match goal with
    | |- context [if ?b then _ else _] => destruct b eqn:?
    | |- context [match ?o with Some _ => _ | None => _ end] => destruct o
    end.

Section Playlist.
Import JSString M3uParser.

Lemma isEmpty_true (s : string) : isEmpty s = true <-> s = "".
Proof. destruct s; simpl; split; congruence. Qed.

Lemma truthy_Some (s : string) : JS.truthy (Some s) = true <-> s <> "".
Proof.
  simpl. destruct (String.eqb_spec s ""); simpl; split; congruence.
Qed.

Lemma matchAttrHere_nonempty (key s v : string) :
  matchAttrHere key s = Some v -> v <> "".
Proof.
  unfold matchAttrHere. destruct (startsWith _ s); [| discriminate].
  destruct (isEmpty (takeWhile _ _)) eqn:He; simpl; [discriminate |].
  destruct (startsWith _ _); [| discriminate].
  intros [= <-] Hv. rewrite Hv in He. discriminate.
Qed.

(** A matched attribute has a value of at least one code unit. *)
Lemma matchAttr_nonempty (key s v : string) : matchAttr key s = Some v -> v <> "".
Proof.
  induction s as [|c s IH]; simpl.
  - destruct (matchAttrHere key "") eqn:E; [| discriminate].
    intros [= <-]. eapply matchAttrHere_nonempty, E.
  - destruct (matchAttrHere key (String c s)) eqn:E; [| exact IH].
    intros [= <-]. eapply matchAttrHere_nonempty, E.
Qed.

Lemma fold_left_invariant {A B : Type} (f : A -> B -> A) (P : A -> Prop) :
  (forall a b, P a -> P (f a b)) ->
  forall l a, P a -> P (fold_left f l a).
Proof.
  intros Hstep l. induction l as [|b l IH]; intros a Ha; simpl; [exact Ha |].
  apply IH, Hstep, Ha.
Qed.

Lemma step_pendingFromExtinf (v : Vars) (line : string) :
  pendingFromExtinf v -> pendingFromExtinf (step v line).
Proof.
  unfold pendingFromExtinf, step. intros Hv.
  split_branches; simpl; eauto.
Qed.

Lemma step_channelsFromExtinf (v : Vars) (line : string) :
  pendingFromExtinf v -> channelsFromExtinf v -> channelsFromExtinf (step v line).
Proof.
  unfold channelsFromExtinf, step. intros Hpend Hv.
  split_branches; simpl; try exact Hv.
  intros i c Hi. apply lookup_app_Some in Hi as [Hi | [Hlen Hi]]; [eauto |].
  apply list_lookup_singleton_Some in Hi as [Hi <-].
  destruct Hpend as [Hm | [infLine Hm]].
  - rewrite Hm in *. discriminate.
  - rewrite Hm in *. exists infLine, (trim line).
    split; [f_equal; lia | assumption].
Qed.

Lemma parseM3U_channelsFromExtinf (lines : list string) :
  pendingFromExtinf (run lines) /\ channelsFromExtinf (run lines).
Proof.
  unfold run.
  apply (fold_left_invariant step (fun v => pendingFromExtinf v /\ channelsFromExtinf v)).
  - intros v line [Hp Hc]. split;
      [apply step_pendingFromExtinf, Hp | apply step_channelsFromExtinf; assumption].
  - split; [left; reflexivity | intros i c Hi; discriminate Hi].
Qed.




End Playlist.

(** ** The groups of a playlist *)

Section Groups.
Import JSString M3uParser.

Lemma startsWith_cons (a b : ascii) (p s : string) :
  startsWith (String a p) (String b s) = true <-> a = b /\ startsWith p s = true.
Proof.
  unfold startsWith. simpl. destruct (ascii_dec a b); intuition congruence.
Qed.

(** A metadata line is neither empty nor a header line. *)
Lemma extinf_line (t : string) :
  startsWith "#EXTINF:" t = true ->
  isEmpty t = false /\ startsWith "#EXTM3U" t = false.
Proof.
  intros H.
  do 5 (destruct t as [|? t]; [discriminate H |];
        apply startsWith_cons in H as [<- H]).
  split; reflexivity.
Qed.

Lemma setAdd_In (x : string) (s : list string) (g : string) :
  In g (setAdd x s) <-> In g s \/ g = x.
Proof.
  unfold setAdd. destruct (existsb (String.eqb x) s) eqn:E.
  - apply existsb_exists in E as (y & Hy & Hxy).
    apply String.eqb_eq in Hxy. subst y. intuition (subst; auto).
  - rewrite in_app_iff. simpl. intuition (subst; auto).
Qed.

Lemma setAdd_NoDup (x : string) (s : list string) : NoDup s -> NoDup (setAdd x s).
Proof.
  intros Hs. unfold setAdd. destruct (existsb (String.eqb x) s) eqn:E; [exact Hs |].
  apply NoDup_app. repeat split; [exact Hs | | apply NoDup_singleton].
  intros y Hy Hyx. apply list_elem_of_singleton in Hyx. subst y.
  assert (existsb (String.eqb x) s = true); [| congruence].
  apply existsb_exists. exists x. split; [apply list_elem_of_In, Hy |].
  apply String.eqb_refl.
Qed.

(** What one line does to the set of groups. *)
Lemma step_groups (v : Vars) (line : string) :
  v_groups (step v line) =
  match groupTitleOf line with
  | Some g => setAdd g (v_groups v)
  | None => v_groups v
  end.
Proof.
  unfold step, groupTitleOf.
  destruct (startsWith "#EXTINF:" (trim line)) eqn:Hinf.
  - destruct (extinf_line _ Hinf) as [-> ->]. reflexivity.
  - split_branches; reflexivity.
Qed.

Lemma run_groups (lines : list string) (v : Vars) :
  (NoDup (v_groups v) -> NoDup (v_groups (fold_left step lines v)))
  /\ (forall g, In g (v_groups (fold_left step lines v))
                <-> In g (v_groups v) \/ In g (omap groupTitleOf lines)).
Proof.
  revert v. induction lines as [|line lines IH]; intros v; simpl.
  - split; [auto | intuition].
  - destruct (IH (step v line)) as [IHnd IHin]. rewrite step_groups in *.
    split.
    + intros Hv. apply IHnd. destruct (groupTitleOf line); [| exact Hv].
      apply setAdd_NoDup, Hv.
    + intros g. rewrite IHin. destruct (groupTitleOf line) as [g0|]; simpl.
      * rewrite setAdd_In. intuition (subst; auto).
      * reflexivity.
Qed.

Lemma compareStrings_antisym (x y : string) :
  JS.positive (compareStrings x y) = true -> JS.positive (compareStrings y x) = false.
Proof.
  unfold compareStrings, JS.positive. rewrite (String.compare_antisym y x).
  destruct (String.compare x y); simpl; intros H; solve [reflexivity | discriminate H].
Qed.

Lemma insertBy_Permutation {A : Type} (cmp : A -> A -> option Z) (x : A) (l : list A) :
  Permutation (x :: l) (JS.insertBy cmp x l).
Proof.
  induction l as [|y l IH]; simpl; [reflexivity |].
  destruct (JS.positive (cmp x y)); [| reflexivity].
  rewrite perm_swap. apply perm_skip, IH.
Qed.

Lemma sortBy_Permutation {A : Type} (cmp : A -> A -> option Z) (l : list A) :
  Permutation l (JS.sortBy cmp l).
Proof.
  induction l as [|x l IH]; simpl; [reflexivity |].
  rewrite <- insertBy_Permutation. apply perm_skip, IH.
Qed.

(** Neighbours in order and no repetition: strictly ascending. *)
Lemma inOrder_NoDup_ascending (l : list string) :
  Sorted (inOrder compareStrings) l -> NoDup l -> ascending l.
Proof.
  unfold ascending. induction 1 as [|a l Hl IH Ha]; intros Hnd; [constructor |].
  apply NoDup_cons in Hnd as [Hnotin Hnd]. constructor; [apply IH, Hnd |].
  destruct Ha as [|b l Hab]; constructor.
  unfold inOrder, compareStrings, JS.positive in Hab.
  destruct (String.compare a b) eqn:E; [| reflexivity | discriminate].
  apply String.compare_eq_iff in E. subst b.
  exfalso. apply Hnotin. left.
Qed.

(** C10.  The [groups] array of [parseM3U] holds exactly the values of
    the group-title attribute seen on the metadata lines of the input,
    each once, in ascending order.  The group [Default] given to a
    channel without the attribute is not added to it: in the result of
    [c10_playlist] the channel has group [Default] and [groups] is
    empty. *)
Theorem groups_are_the_group_titles :
  (forall m3uContent : string,
     let groups := md_groups (parseM3U m3uContent) in
     (forall g, In g groups <-> In g (groupTitlesSeen m3uContent))
     /\ NoDup groups
     /\ ascending groups)
  /\ (exists c, In c (md_channels (parseM3U c10_playlist))
                /\ ch_group c = "Default"
                /\ ~ In (ch_group c) (md_groups (parseM3U c10_playlist))).
Proof.
  split.
  - intros m3uContent. simpl. unfold run, groupTitlesSeen.
    destruct (run_groups (splitLines m3uContent) initial) as [Hnd Hin].
    specialize (Hnd (NoDup_nil_2)).
    assert (Hnd' : NoDup (JS.sortBy compareStrings
                            (v_groups (fold_left step (splitLines m3uContent) initial)))).
    { rewrite <- sortBy_Permutation. exact Hnd. }
    repeat split.
    + rewrite sortBy_In, Hin. simpl. tauto.
    + rewrite sortBy_In, Hin. simpl. tauto.
    + exact Hnd'.
    + apply inOrder_NoDup_ascending; [| exact Hnd'].
      apply sortBy_Sorted, compareStrings_antisym.
  - eexists. vm_compute. split; [left; reflexivity |]. split; [reflexivity | tauto].
Qed.

Lemma groups_are_the_group_titles_witness :
  In "Info" (md_groups (parseM3U c6_playlist)).
Proof.
  destruct groups_are_the_group_titles as [Hall _].
  destruct (Hall c6_playlist) as (Hin & _ & _).
  apply Hin. vm_compute. left. reflexivity.
Defined.

End Groups.

(** ** The guide parser *)

Section Guide.
Import EpgParser.

Variables (tz : Z) (clock : nat -> Z).

Lemma pushEntry_entriesFromItems (items : list Programme) (i : nat) (item : Programme)
  (epgData epgData' : EPGData) :
  items !! i = Some item ->
  entriesFromItems tz clock items i epgData ->
  pushEntry epgData (channelOf item) (programmeEntry tz clock i item)
  = JS.Returned epgData' ->
  entriesFromItems tz clock items (S i) epgData'.
Proof.
  intros Hitem Hinv Hpush key programs p Hkey Hp.
  assert (Hold : forall programs0, epgData !! key = Some programs0 ->
                   In p programs0 ->
                   exists i0 item0, (i0 < S i)%nat /\ items !! i0 = Some item0
                     /\ key = channelOf item0 /\ p = programmeEntry tz clock i0 item0).
  { intros programs0 Hk0 Hp0.
    destruct (Hinv key programs0 p Hk0 Hp0) as (i0 & item0 & ? & ? & ? & ?).
    exists i0, item0. repeat split; auto; lia. }
  assert (Hnew : p = programmeEntry tz clock i item -> key = channelOf item ->
                 exists i0 item0, (i0 < S i)%nat /\ items !! i0 = Some item0
                   /\ key = channelOf item0 /\ p = programmeEntry tz clock i0 item0).
  { intros -> ->. exists i, item. repeat split; auto. }
  unfold pushEntry in Hpush.
  destruct (epgData !! channelOf item) as [old|] eqn:Hch.
  - injection Hpush as <-.
    destruct (decide (channelOf item = key)) as [<- | Hne].
    + rewrite lookup_insert_eq in Hkey. injection Hkey as <-.
      apply in_app_or in Hp as [Hp | [<- | []]]; [eapply Hold; eauto | auto].
    + rewrite lookup_insert_ne in Hkey by exact Hne. eapply Hold; eauto.
  - destruct (existsb _ JS.objectPrototypeKeys); [discriminate |].
    injection Hpush as <-.
    destruct (decide (channelOf item = key)) as [<- | Hne].
    + rewrite lookup_insert_eq in Hkey. injection Hkey as <-.
      destruct Hp as [<- | []]. auto.
    + rewrite lookup_insert_ne in Hkey by exact Hne. eapply Hold; eauto.
Qed.

Lemma collect_entriesFromItems (rest done : list Programme) (epgData epgData' : EPGData) :
  entriesFromItems tz clock (done ++ rest) (List.length done) epgData ->
  collect tz clock (List.length done) rest epgData = JS.Returned epgData' ->
  entriesFromItems tz clock (done ++ rest) (List.length (done ++ rest)) epgData'.
Proof.
  revert done epgData. induction rest as [|item rest IH]; intros done epgData Hinv; simpl.
  - intros [= <-]. rewrite app_nil_r in *. exact Hinv.
  - destruct (pushEntry epgData (channelOf item) _) as [e1|] eqn:Hpush; [| discriminate].
    intros Hrest.
    replace (done ++ item :: rest)%list with ((done ++ [item]) ++ rest)%list in *
      by (rewrite <- app_assoc; reflexivity).
    apply (IH (done ++ [item])%list e1).
    + rewrite length_app. simpl. rewrite Nat.add_1_r.
      eapply pushEntry_entriesFromItems; [| exact Hinv | exact Hpush].
      rewrite <- app_assoc. apply list_lookup_middle. reflexivity.
    + rewrite length_app. simpl. rewrite Nat.add_1_r. exact Hrest.
Qed.

(** C8, as amended.  [parseEPG] checks nothing about the two instants:
    every entry it produces is the entry of one [programme] element of
    the document, filed under the channel of that element, with the
    instants parsed from its start and stop attributes as they are; its
    end is strictly after its start exactly when the stop attribute
    parses to a later instant than the start attribute. *)
Theorem parsed_entry_keeps_its_attributes
  (items : list Programme) (epgData : EPGData) (key : string)
  (programs : list EPGProgram) (p : EPGProgram) :
  parseEPG tz clock items = JS.Returned epgData ->
  epgData !! key = Some programs ->
  In p programs ->
  exists (i : nat) (item : Programme),
    items !! i = Some item
    /\ key = channelOf item
    /\ prog_start p = parseTime tz (clock (2 * i)%nat) (default "" (el_start item))
    /\ prog_end p = parseTime tz (clock (2 * i + 1)%nat) (default "" (el_stop item))
    /\ (endAfterStart p <->
        JS.lt (parseTime tz (clock (2 * i)%nat) (default "" (el_start item)))
              (parseTime tz (clock (2 * i + 1)%nat) (default "" (el_stop item)))
        = true).
Proof.
  unfold parseEPG. intros Hparse Hkey Hp.
  destruct (collect tz clock 0 items ∅) as [collected|] eqn:Hcol; [| discriminate].
  injection Hparse as <-.
  rewrite lookup_fmap in Hkey. apply fmap_Some in Hkey as (unsorted & Hkey & ->).
  apply sortBy_In in Hp.
  assert (Hinv : entriesFromItems tz clock items (List.length items) collected).
  { apply (collect_entriesFromItems items [] ∅ collected); [| exact Hcol].
    intros k ps q Hk. rewrite lookup_empty in Hk. discriminate. }
  destruct (Hinv key unsorted p Hkey Hp) as (i & item & _ & Hitem & -> & ->).
  exists i, item. unfold endAfterStart. simpl. tauto.
Qed.

End Guide.

(** The claim as the specification has it fails on [c8_items]: the entry
    produced ends two hours before it starts. *)
Lemma parsed_entry_ends_before_start : ~ parsedEntriesEndAfterStart.
Proof.
  intros Hall.
  assert (Hp : endAfterStart c8_entry).
  { apply (Hall 0 (fun _ => 0) c8_items {[ "news1" := [c8_entry] ]} "news1" [c8_entry]).
    - vm_compute. reflexivity.
    - reflexivity.
    - left. reflexivity. }
  discriminate Hp.
Qed.

Lemma parsed_entry_keeps_its_attributes_witness :
  exists (i : nat) (item : EpgParser.Programme),
    [c8_item_ok] !! i = Some item
    /\ "news1" = EpgParser.channelOf item
    /\ prog_start c8_entry_ok
       = EpgParser.parseTime 0 0 (default "" (EpgParser.el_start item))
    /\ prog_end c8_entry_ok
       = EpgParser.parseTime 0 0 (default "" (EpgParser.el_stop item))
    /\ (endAfterStart c8_entry_ok <->
        JS.lt (EpgParser.parseTime 0 0 (default "" (EpgParser.el_start item)))
              (EpgParser.parseTime 0 0 (default "" (EpgParser.el_stop item)))
        = true).
Proof.
  apply (parsed_entry_keeps_its_attributes 0 (fun _ => 0) [c8_item_ok]
           {[ "news1" := [c8_entry_ok] ]} "news1" [c8_entry_ok] c8_entry_ok).
  - vm_compute. reflexivity.
  - reflexivity.
  - left. reflexivity.
Defined.

(* ===================================================================== *)
(** * Part III: further properties of the code                            *)
(* ===================================================================== *)

(** ** The gap-fill synthesizer, in full *)

Section GapFillBlocks.
Import EpgParser.

Variables (existing : list EPGProgram) (channelId : string) (now : Z).

Lemma TWO_HOURS_MS_value : TWO_HOURS_MS = 7200000.
Proof. reflexivity. Qed.

Lemma TWO_HOURS_MS_pos : 0 < TWO_HOURS_MS.
Proof. reflexivity. Qed.

(** The blocks the loop visits from [cs] on are those at a whole number of
    two-hour steps from [cs] that start before [now]; it pushes exactly
    the visited blocks that pass the overlap test. *)
Lemma fallbackLoop_blocks (cs : Z) (s : EPGProgram) :
  In s (fallbackLoop existing channelId now cs) <->
  exists c, s = fallbackBlock channelId c (c + TWO_HOURS_MS)
            /\ cs <= c < now
            /\ (c - cs) mod TWO_HOURS_MS = 0
            /\ hasOverlap existing c (c + TWO_HOURS_MS) = false.
Proof.
  funelim (fallbackLoop existing channelId now cs);
    pose proof TWO_HOURS_MS_pos as HT.
  - split.
    + intros Hin.
      assert (Hcases : s = fallbackBlock channelId currentStart (currentStart + TWO_HOURS_MS)
                       /\ hasOverlap existing currentStart (currentStart + TWO_HOURS_MS) = false
                       \/ In s (fallbackLoop existing channelId now (currentStart + TWO_HOURS_MS))).
      { destruct (hasOverlap existing currentStart _) eqn:Hov; [right; exact Hin |].
        destruct Hin as [<- | Hin]; [left; auto | right; exact Hin]. }
      destruct Hcases as [[-> Hov] | Hin'].
      * exists currentStart. repeat split; auto; try lia.
        rewrite Z.sub_diag. apply Z.mod_0_l. lia.
      * apply H in Hin' as (c & -> & Hc & Hmod & Hov).
        exists c. repeat split; auto; try lia.
        replace (c - currentStart)
          with (c - (currentStart + TWO_HOURS_MS) + 1 * TWO_HOURS_MS) by lia.
        rewrite Z.mod_add by lia. exact Hmod.
    + intros (c & -> & Hc & Hmod & Hov).
      destruct (Z.eq_dec c currentStart) as [-> | Hne].
      * rewrite Hov. left. reflexivity.
      * assert (Hin' : In (fallbackBlock channelId c (c + TWO_HOURS_MS))
                         (fallbackLoop existing channelId now (currentStart + TWO_HOURS_MS))).
        { apply H. exists c.
          apply Z.mod_divide in Hmod as [k Hk]; [| lia].
          assert (1 <= k) by nia.
          repeat split; auto; try nia.
          replace (c - (currentStart + TWO_HOURS_MS)) with ((k - 1) * TWO_HOURS_MS) by lia.
          apply Z.mod_mul. lia. }
        destruct (hasOverlap existing currentStart _); [exact Hin' | right; exact Hin'].
  - split; [intros [] | intros (c & _ & Hc & _); lia].
Qed.

(** The blocks are pushed in ascending order, each ending before the next
    starts, none before [cs]. *)
Lemma fallbackLoop_ascending (cs : Z) :
  StronglySorted endsBeforeStartOf (fallbackLoop existing channelId now cs).
Proof.
  funelim (fallbackLoop existing channelId now cs);
    pose proof TWO_HOURS_MS_pos as HT; [| constructor].
  destruct (hasOverlap existing currentStart _); [exact H |].
  constructor; [exact H |].
  apply List.Forall_forall. intros s Hs.
  apply fallbackLoop_blocks in Hs as (c & -> & Hc & _).
  exists (currentStart + TWO_HOURS_MS), c. simpl. repeat split. lia.
Qed.

End GapFillBlocks.

Lemma firstBlockStart_rounds (now lookbackHours : Z) :
  let cs := firstBlockStart now lookbackHours in
  cs mod EpgParser.TWO_HOURS_MS = 0
  /\ cs <= windowStart now lookbackHours < cs + EpgParser.TWO_HOURS_MS.
Proof.
  unfold firstBlockStart, windowStart. rewrite TWO_HOURS_MS_value.
  set (startTime := now - lookbackHours * 60 * 60 * 1000).
  rewrite Z.div_div by lia. change (60 * 60 * 1000 * 2) with 7200000.
  replace (startTime / 7200000 * 2 * 60 * 60 * 1000)
    with (startTime / 7200000 * 7200000) by lia.
  pose proof (Z.div_mod startTime 7200000 ltac:(lia)) as Hdm.
  pose proof (Z.mod_pos_bound startTime 7200000 ltac:(lia)) as Hb.
  split; [apply Z.mod_mul; lia | lia].
Qed.

Lemma generateFallbackPrograms_loop (now : Z) (existing : list EPGProgram)
  (channelId : string) (lookbackHours : Z) :
  EpgParser.generateFallbackPrograms now existing channelId lookbackHours
  = EpgParser.fallbackLoop existing channelId now (firstBlockStart now lookbackHours).
Proof. reflexivity. Qed.


(** The blocks the loop of [generateFallbackPrograms] visits are those that
    start on an even hour, later than two hours before the window opens
    and before [now]. *)
Lemma visited_blocks (now lookbackHours c : Z) :
  (firstBlockStart now lookbackHours <= c < now
   /\ (c - firstBlockStart now lookbackHours) mod EpgParser.TWO_HOURS_MS = 0)
  <-> (onEvenHour c
       /\ windowStart now lookbackHours - EpgParser.TWO_HOURS_MS < c < now).
Proof.
  destruct (firstBlockStart_rounds now lookbackHours) as [Hcs Hwin].
  set (cs := firstBlockStart now lookbackHours) in *.
  pose proof TWO_HOURS_MS_pos as HT. unfold onEvenHour.
  apply Z.mod_divide in Hcs as [k0 Hk0]; [| lia].
  split.
  - intros [Hc Hmod]. apply Z.mod_divide in Hmod as [k Hk]; [| lia].
    split; [| lia]. apply Z.mod_divide; [lia |]. exists (k + k0). lia.
  - intros [Hmod Hc]. apply Z.mod_divide in Hmod as [k Hk]; [| lia].
    assert (k0 <= k) by nia.
    split; [nia |]. apply Z.mod_divide; [lia |]. exists (k - k0). lia.
Qed.

(** What a block of the result is, and which blocks are in the result. *)
Lemma generated_block_inv
  (now : Z) (existing : list EPGProgram) (channelId : string) (lookbackHours : Z)
  (s : EPGProgram) :
  In s (EpgParser.generateFallbackPrograms now existing channelId lookbackHours) ->
  exists c, s = EpgParser.fallbackBlock channelId c (c + EpgParser.TWO_HOURS_MS)
            /\ onEvenHour c
            /\ windowStart now lookbackHours - EpgParser.TWO_HOURS_MS < c < now
            /\ EpgParser.hasOverlap existing c (c + EpgParser.TWO_HOURS_MS) = false.
Proof.
  rewrite generateFallbackPrograms_loop, fallbackLoop_blocks.
  intros (c & -> & Hc & Hmod & Hov). exists c.
  destruct (proj1 (visited_blocks now lookbackHours c) (conj Hc Hmod)) as [He Hw].
  auto.
Qed.

Lemma generated_block_intro
  (now : Z) (existing : list EPGProgram) (channelId : string) (lookbackHours c : Z) :
  onEvenHour c ->
  windowStart now lookbackHours - EpgParser.TWO_HOURS_MS < c < now ->
  EpgParser.hasOverlap existing c (c + EpgParser.TWO_HOURS_MS) = false ->
  In (EpgParser.fallbackBlock channelId c (c + EpgParser.TWO_HOURS_MS))
     (EpgParser.generateFallbackPrograms now existing channelId lookbackHours).
Proof.
  intros He Hw Hov.
  rewrite generateFallbackPrograms_loop, fallbackLoop_blocks. exists c.
  destruct (proj2 (visited_blocks now lookbackHours c) (conj He Hw)) as [Hc Hmod].
  auto.
Qed.

(** X1.  The result of [generateFallbackPrograms] is exactly the set of
    two-hour blocks that start on an even hour, later than two hours before
    the lookback window opens and before [now], and that pass the overlap
    test against the existing entries. *)
Theorem fallback_blocks_characterised
  (now : Z) (existing : list EPGProgram) (channelId : string) (lookbackHours : Z)
  (s : EPGProgram) :
  In s (EpgParser.generateFallbackPrograms now existing channelId lookbackHours) <->
  exists c, s = EpgParser.fallbackBlock channelId c (c + EpgParser.TWO_HOURS_MS)
            /\ onEvenHour c
            /\ windowStart now lookbackHours - EpgParser.TWO_HOURS_MS < c < now
            /\ EpgParser.hasOverlap existing c (c + EpgParser.TWO_HOURS_MS) = false.
Proof.
  rewrite generateFallbackPrograms_loop, fallbackLoop_blocks.
  split.
  - intros (c & -> & Hc & Hmod & Hov). exists c.
    destruct (proj1 (visited_blocks now lookbackHours c) (conj Hc Hmod)) as [He Hw].
    repeat split; auto; lia.
  - intros (c & -> & He & Hw & Hov). exists c.
    destruct (proj2 (visited_blocks now lookbackHours c) (conj He Hw)) as [Hc Hmod].
    repeat split; auto; lia.
Qed.

(** X2.  Coverage of the lookback window, as the code has it: every instant
    from the opening of the window up to [now] lies in a synthesized block,
    or in a two-hour block that was suppressed because an existing entry
    meets it.  With no existing entries the synthesized blocks cover the
    whole window. *)
Theorem fallback_blocks_cover_the_window
  (now : Z) (existing : list EPGProgram) (channelId : string) (lookbackHours : Z)
  (t : Z) :
  windowStart now lookbackHours <= t < now ->
  ((exists s, In s (EpgParser.generateFallbackPrograms now existing channelId lookbackHours)
              /\ covers s t)
   \/ (exists c r, onEvenHour c /\ c <= t < c + EpgParser.TWO_HOURS_MS
                   /\ In r existing
                   /\ EpgParser.overlapsBlock c (c + EpgParser.TWO_HOURS_MS) r = true))
  /\ (existing = [] ->
      exists s, In s (EpgParser.generateFallbackPrograms now existing channelId lookbackHours)
                /\ covers s t).
Proof.
  intros Ht. pose proof TWO_HOURS_MS_pos as HT.
  set (c := t / EpgParser.TWO_HOURS_MS * EpgParser.TWO_HOURS_MS).
  assert (Hc : onEvenHour c /\ c <= t < c + EpgParser.TWO_HOURS_MS).
  { unfold onEvenHour, c.
    pose proof (Z.div_mod t EpgParser.TWO_HOURS_MS ltac:(lia)) as Hdm.
    pose proof (Z.mod_pos_bound t EpgParser.TWO_HOURS_MS HT) as Hb.
    split; [apply Z.mod_mul; lia | lia]. }
  destruct Hc as [Heven Hin].
  assert (Hblock : EpgParser.hasOverlap existing c (c + EpgParser.TWO_HOURS_MS) = false ->
            exists s, In s (EpgParser.generateFallbackPrograms now existing channelId lookbackHours)
                      /\ covers s t).
  { intros Hov. exists (EpgParser.fallbackBlock channelId c (c + EpgParser.TWO_HOURS_MS)).
    split.
    - apply generated_block_intro; [exact Heven | lia | exact Hov].
    - split; simpl; [apply Z.leb_le | apply Z.ltb_lt]; lia. }
  split.
  - destruct (EpgParser.hasOverlap existing c (c + EpgParser.TWO_HOURS_MS)) eqn:Hov.
    + right. apply existsb_exists in Hov as (r & Hr & Hro).
      exists c, r. auto.
    + left. apply Hblock. reflexivity.
  - intros ->. apply Hblock. reflexivity.
Qed.

Lemma fallback_blocks_cover_the_window_witness :
  exists s, In s (EpgParser.generateFallbackPrograms sample_now [] "news1" 4)
            /\ covers s (sample_now - 1).
Proof.
  apply (proj2 (fallback_blocks_cover_the_window sample_now [] "news1" 4
                  (sample_now - 1) ltac:(vm_compute; split; congruence))).
  reflexivity.
Defined.

(** X3.  The blocks [generateFallbackPrograms] returns come in ascending
    order, each ending no later than the next one starts, and two
    different blocks of the result share no instant. *)
Theorem fallback_blocks_ascending_and_disjoint
  (now : Z) (existing : list EPGProgram) (channelId : string) (lookbackHours : Z) :
  let blocks := EpgParser.generateFallbackPrograms now existing channelId lookbackHours in
  StronglySorted endsBeforeStartOf blocks
  /\ (forall a b, In a blocks -> In b blocks -> a <> b -> ~ intersects a b).
Proof.
  intros blocks. subst blocks. split.
  - rewrite generateFallbackPrograms_loop. apply fallbackLoop_ascending.
  - rewrite generateFallbackPrograms_loop. intros a b Ha Hb Hab (t & [Ha1 Ha2] & [Hb1 Hb2]).
    apply fallbackLoop_blocks in Ha as (ca & -> & _ & Hma & _).
    apply fallbackLoop_blocks in Hb as (cb & -> & _ & Hmb & _).
    simpl in *. apply Z.leb_le in Ha1, Hb1. apply Z.ltb_lt in Ha2, Hb2.
    pose proof TWO_HOURS_MS_pos as HT.
    apply Z.mod_divide in Hma as [ka Hka]; [| lia].
    apply Z.mod_divide in Hmb as [kb Hkb]; [| lia].
    assert (ka = kb) by nia. subst kb.
    apply Hab. f_equal; lia.
Qed.

Lemma fallback_blocks_ascending_and_disjoint_witness :
  ~ intersects (EpgParser.fallbackBlock "news1" 1704088800000 1704096000000)
               (EpgParser.fallbackBlock "news1" 1704096000000 1704103200000).
Proof.
  apply (proj2 (fallback_blocks_ascending_and_disjoint sample_now [] "news1" 4)).
  - vm_compute. left. reflexivity.
  - vm_compute. right. left. reflexivity.
  - discriminate.
Defined.

Section CurrentProgramOfApp.
Import EpgParser AppComponent.

Lemma allPrograms_In (now : Z) (programs : list EPGProgram) (channelId : string)
  (p : EPGProgram) :
  In p (allPrograms now programs channelId) <->
  In p programs \/ In p (generateFallbackPrograms now programs channelId 48).
Proof.
  unfold allPrograms, mergeFallback. rewrite sortBy_In, in_app_iff. reflexivity.
Qed.

Lemma fallbackBlock_covers (channelId : string) (c t : Z) :
  covers (fallbackBlock channelId c (c + TWO_HOURS_MS)) t <-> c <= t < c + TWO_HOURS_MS.
Proof.
  unfold covers. simpl. rewrite Z.leb_le, Z.ltb_lt. reflexivity.
Qed.



(** X5.  Real entries take precedence: whenever a real entry of the
    channel is on air at [now], the programme the [App] effect finds is a
    real entry on air at [now], never a fallback block. *)
Theorem real_programme_takes_precedence
  (now : Z) (programs : list EPGProgram) (channelId : string) (r : EPGProgram) :
  In r programs ->
  covers r now ->
  exists p, findCurrentProgram (allPrograms now programs channelId) (Some now) = Some p
            /\ In p programs
            /\ covers p now.
Proof.
  intros Hr Hcov.
  pose proof (findCurrentProgram_spec (allPrograms now programs channelId) now) as Hspec.
  destruct (findCurrentProgram (allPrograms now programs channelId) (Some now)) as [p|].
  - destruct Hspec as [Hp Hpcov]. exists p. split; [reflexivity |].
    apply allPrograms_In in Hp as [Hp | Hp]; [auto |].
    exfalso.
    apply generated_block_inv in Hp as (c & -> & _ & _ & Hov).
    apply fallbackBlock_covers in Hpcov.
    assert (Hr' : overlapsBlock c (c + TWO_HOURS_MS) r = false).
    { destruct (overlapsBlock c _ r) eqn:E; [| reflexivity].
      rewrite <- Hov. symmetry. apply existsb_exists. exists r. auto. }
    apply (overlapsBlock_false_disjoint c r now Hr' Hcov). exact Hpcov.
  - exfalso. apply (Hspec r); [| exact Hcov]. apply allPrograms_In. left. exact Hr.
Qed.

Lemma real_programme_takes_precedence_witness :
  exists p, findCurrentProgram (allPrograms offBoundary_now [late_show] "news1")
              (Some offBoundary_now) = Some p
            /\ In p [late_show]
            /\ covers p offBoundary_now.
Proof.
  apply (real_programme_takes_precedence offBoundary_now [late_show] "news1" late_show).
  - left. reflexivity.
  - split; reflexivity.
Defined.

End CurrentProgramOfApp.

(** ** Sorting by start *)

Section SortedByStart.
Import EpgParser.

Lemma startsNoLater_trans : Transitive startsNoLater.
Proof.
  intros a b c. unfold startsNoLater, JS.le.
  destruct (prog_start a), (prog_start b), (prog_start c); try discriminate.
  rewrite !Z.leb_le. lia.
Qed.

(** Between entries with valid starts, what [sort] leaves in order is in
    order of start. *)
Lemma inOrder_startsNoLater (a b : EPGProgram) :
  is_Some (prog_start a) -> is_Some (prog_start b) ->
  inOrder byStart a b -> startsNoLater a b.
Proof.
  intros [x Hx] [y Hy]. unfold inOrder, startsNoLater, byStart, JS.getTime.
  rewrite Hx, Hy. simpl. rewrite Z.ltb_ge, Z.leb_le. lia.
Qed.

Lemma sorted_by_start (l : list EPGProgram) :
  startsValid l -> Sorted (inOrder byStart) l -> StronglySorted startsNoLater l.
Proof.
  intros Hv Hs. apply Sorted_StronglySorted; [exact startsNoLater_trans |].
  induction Hs as [|a l Hl IH Ha]; [constructor |].
  apply Forall_cons_1 in Hv as [Hva Hvl].
  constructor; [apply IH, Hvl |].
  destruct Ha as [|b l Hab]; constructor.
  apply Forall_cons_1 in Hvl as [Hvb _].
  apply inOrder_startsNoLater; assumption.
Qed.

Lemma sortBy_startsValid (l : list EPGProgram) :
  startsValid l -> startsValid (JS.sortBy byStart l).
Proof.
  unfold startsValid. rewrite !List.Forall_forall.
  intros H p Hp. apply H. apply sortBy_In in Hp. exact Hp.
Qed.

(** X6.  The list the [App] effect builds loses and invents nothing: it is
    a rearrangement of the real entries followed by the fallback blocks;
    and when the real entries have valid start dates it is in ascending
    order of start. *)
Theorem merged_list_is_sorted_rearrangement
  (now : Z) (programs : list EPGProgram) (channelId : string) (lookbackHours : Z) :
  let merged := AppComponent.mergeFallback now programs channelId lookbackHours in
  Permutation
    (programs ++ generateFallbackPrograms now programs channelId lookbackHours) merged
  /\ (startsValid programs -> StronglySorted startsNoLater merged).
Proof.
  intros merged. subst merged. unfold AppComponent.mergeFallback. split.
  - apply sortBy_Permutation.
  - intros Hv. apply sorted_by_start.
    + apply sortBy_startsValid. apply Forall_app. split; [exact Hv |].
      apply List.Forall_forall. intros s Hs.
      apply generated_block_inv in Hs as (c & -> & _). simpl. eauto.
    + apply sortBy_Sorted, byStart_antisym.
Qed.

Lemma merged_list_is_sorted_rearrangement_witness :
  StronglySorted startsNoLater
    (AppComponent.mergeFallback sample_now [c1_real] "news1" 4).
Proof.
  apply (proj2 (merged_list_is_sorted_rearrangement sample_now [c1_real] "news1" 4)).
  repeat constructor. eexists. reflexivity.
Defined.

End SortedByStart.

(** ** The guide parser, in full *)

Section GuideContents.
Import EpgParser.

Variables (tz : Z) (clock : nat -> Z).

Lemma inherited_existsb (key : string) :
  existsb (String.eqb key) JS.objectPrototypeKeys = true
  <-> In key JS.objectPrototypeKeys.
Proof.
  rewrite existsb_exists. split.
  - intros (k & Hk & E). apply String.eqb_eq in E. subst. exact Hk.
  - intros Hk. exists key. split; [exact Hk | apply String.eqb_refl].
Qed.





End GuideContents.



Section GuideOrderAndErrors.
Import EpgParser.

Variables (tz : Z) (clock : nat -> Z).

(** X8.  Every list of the index [parseEPG] returns is in the order [sort]
    leaves with the start comparator; when the starts in the list are
    valid dates, the list is in ascending order of start. *)
Theorem parsed_lists_are_sorted
  (items : list Programme) (epgData : EPGData) (key : string)
  (programs : list EPGProgram) :
  parseEPG tz clock items = JS.Returned epgData ->
  epgData !! key = Some programs ->
  Sorted (inOrder byStart) programs
  /\ (startsValid programs -> StronglySorted startsNoLater programs).
Proof.
  unfold parseEPG.
  destruct (collect tz clock 0 items ∅) as [collected|]; [| discriminate].
  intros [= <-] Hkey.
  rewrite lookup_fmap in Hkey. apply fmap_Some in Hkey as (unsorted & _ & ->).
  assert (Hs : Sorted (inOrder byStart) (JS.sortBy byStart unsorted))
    by apply sortBy_Sorted, byStart_antisym.
  split; [exact Hs |].
  intros Hv. apply sorted_by_start; assumption.
Qed.

Lemma pushEntry_throws (epgData : EPGData) (item : Programme) (entry : EPGProgram) :
  noInheritedKey epgData ->
  match pushEntry epgData (channelOf item) entry with
  | JS.Returned epgData' => noInheritedKey epgData' /\ ~ inheritedKey item
  | JS.Thrown _ => inheritedKey item
  end.
Proof.
  unfold pushEntry, inheritedKey. intros Hinv.
  assert (Hkeep : forall l : list EPGProgram,
            ~ In (channelOf item) JS.objectPrototypeKeys ->
            noInheritedKey (<[channelOf item := l]> epgData)).
  { intros l Hni key Hkey.
    destruct (decide (channelOf item = key)) as [<- | Hne]; [exact Hni |].
    rewrite lookup_insert_ne in Hkey by exact Hne. apply Hinv, Hkey. }
  destruct (epgData !! channelOf item) as [old|] eqn:Hold.
  - assert (Hni : ~ In (channelOf item) JS.objectPrototypeKeys)
      by (apply Hinv; rewrite Hold; eauto).
    split; [apply Hkeep, Hni | exact Hni].
  - destruct (existsb _ _) eqn:E.
    + apply inherited_existsb, E.
    + assert (Hni : ~ In (channelOf item) JS.objectPrototypeKeys).
      { intros Hin. apply inherited_existsb in Hin. congruence. }
      split; [apply Hkeep, Hni | exact Hni].
Qed.

Lemma collect_throws (rest : list Programme) (i : nat) (epgData : EPGData) :
  noInheritedKey epgData ->
  (exists m, collect tz clock i rest epgData = JS.Thrown m)
  <-> Exists inheritedKey rest.
Proof.
  revert i epgData. induction rest as [|item rest IH]; intros i epgData Hinv; simpl.
  - split; [intros [m [=]] | intros H; inversion H].
  - pose proof (pushEntry_throws epgData item (programmeEntry tz clock i item) Hinv)
      as Hpush.
    destruct (pushEntry epgData (channelOf item) _) as [e1 | m].
    + destruct Hpush as [Hinv1 Hni]. rewrite (IH (S i) e1 Hinv1).
      split; [intros H; right; exact H |].
      intros H. inversion H; subst; [contradiction | assumption].
    + split; [intros _; left; exact Hpush | intros _; eauto].
Qed.

(** X9.  [parseEPG] throws exactly when the channel attribute of some
    [programme] element is the name of a property that the object literal
    inherits from [Object.prototype]; for every other document it returns
    an index. *)
Theorem parseEPG_throws_iff (items : list Programme) :
  (exists m, parseEPG tz clock items = JS.Thrown m) <-> Exists inheritedKey items.
Proof.
  assert (Hempty : noInheritedKey (∅ : EPGData)).
  { intros k [x Hx]. rewrite lookup_empty in Hx. discriminate. }
  rewrite <- (collect_throws items 0 ∅ Hempty). unfold parseEPG.
  destruct (collect tz clock 0 items ∅) as [e | m].
  - split; intros [m [=]].
  - split; intros _; eauto.
Qed.

Lemma isTimezoneSuffix_cons (c : ascii) (s : string) :
  JSString.isWhiteSpace c = false -> JSString.isTimezoneSuffix (String c s) = false.
Proof.
  intros Hc. unfold JSString.isTimezoneSuffix. simpl JSString.trimStart.
  rewrite Hc. rewrite Nat.eqb_refl. reflexivity.
Qed.

Lemma stripTimezone_unfold (s : string) :
  JSString.stripTimezone s =
  if JSString.isTimezoneSuffix s then EmptyString
  else match s with
       | String c r => String c (JSString.stripTimezone r)
       | EmptyString => EmptyString
       end.
Proof. destruct s; reflexivity. Qed.

(** Text without white space followed by an offset: [replace] removes the
    offset and nothing else. *)
Lemma stripTimezone_offset (s o : string) :
  noWhiteSpace s -> JSString.isTimezoneSuffix o = true ->
  JSString.stripTimezone (s ++ o) = s.
Proof.
  unfold noWhiteSpace. intros Hs Ho. induction s as [|c s IH].
  - change ("" ++ o) with o. rewrite stripTimezone_unfold, Ho. reflexivity.
  - simpl in Hs. apply andb_true_iff in Hs as [Hc Hs]. apply negb_true_iff in Hc.
    change (String c s ++ o) with (String c (s ++ o)).
    rewrite stripTimezone_unfold, (isTimezoneSuffix_cons c (s ++ o) Hc), IH by exact Hs.
    reflexivity.
Qed.

Lemma stripTimezone_plain (s : string) :
  noWhiteSpace s -> JSString.stripTimezone s = s.
Proof.
  unfold noWhiteSpace. intros Hs. induction s as [|c s IH].
  - reflexivity.
  - simpl in Hs. apply andb_true_iff in Hs as [Hc Hs]. apply negb_true_iff in Hc.
    rewrite stripTimezone_unfold, (isTimezoneSuffix_cons c s Hc), IH by exact Hs.
    reflexivity.
Qed.

(** X10.  The offset of a timestamp is dropped, not applied: a timestamp
    without white space followed by an offset (white space, a sign, four
    digits) parses to the same instant as the timestamp alone, whatever
    the offset says. *)
Theorem parseTime_ignores_the_offset (now : Z) (s o : string) :
  s <> "" ->
  noWhiteSpace s ->
  JSString.isTimezoneSuffix o = true ->
  parseTime tz now (s ++ o) = parseTime tz now s.
Proof.
  intros Hne Hs Ho. unfold parseTime.
  rewrite (stripTimezone_offset s o Hs Ho), (stripTimezone_plain s Hs).
  destruct s; [contradiction | reflexivity].
Qed.

End GuideOrderAndErrors.

Lemma parsed_lists_are_sorted_witness :
  StronglySorted startsNoLater two_programmes_sorted.
Proof.
  apply (parsed_lists_are_sorted 0 (fun _ => 0) two_programmes
           {[ "news1" := two_programmes_sorted ]} "news1" two_programmes_sorted).
  - vm_compute. reflexivity.
  - reflexivity.
  - repeat constructor; eexists; reflexivity.
Defined.

Lemma parseTime_ignores_the_offset_witness :
  EpgParser.parseTime 0 0 ("20240101060000" ++ " +0800")
  = EpgParser.parseTime 0 0 "20240101060000".
Proof.
  apply (parseTime_ignores_the_offset 0 0 "20240101060000" " +0800").
  - discriminate.
  - reflexivity.
  - reflexivity.
Defined.

(** ** The playlist parser, in full *)

Section StringFacts.
Import JSString.

Lemma allChars_app (f : ascii -> bool) (a b : string) :
  allChars f (a ++ b) = allChars f a && allChars f b.
Proof.
  induction a as [|c a IH]; simpl; [reflexivity |].
  rewrite IH. apply andb_assoc.
Qed.




Lemma trimEnd_idempotent (s : string) : trimEnd (trimEnd s) = trimEnd s.
Proof.
  induction s as [|c s IH]; simpl; [reflexivity |].
  destruct (isWhiteSpace c && isEmpty (trimEnd s)) eqn:E; [reflexivity |].
  simpl. rewrite IH, E. reflexivity.
Qed.

(** Without white space in front, [trimStart] has nothing to remove, and
    [trimEnd] leaves the front as it is. *)
Lemma trimStart_trimEnd_trimStart (s : string) :
  trimStart (trimEnd (trimStart s)) = trimEnd (trimStart s).
Proof.
  induction s as [|c s IH]; simpl; [reflexivity |].
  destruct (isWhiteSpace c) eqn:Hc; [exact IH |].
  simpl. rewrite Hc. simpl. rewrite Hc. reflexivity.
Qed.

Lemma trim_idempotent (s : string) : trim (trim s) = trim s.
Proof.
  unfold trim. rewrite trimStart_trimEnd_trimStart. apply trimEnd_idempotent.
Qed.


End StringFacts.

Section ChannelFields.
Import JSString M3uParser.


Lemma In_lookup {A : Type} (l : list A) (x : A) :
  In x l -> exists i, l !! i = Some x.
Proof. intros H. apply list_elem_of_lookup, list_elem_of_In, H. Qed.



End ChannelFields.

Section ParserLoop.
Import JSString M3uParser.

(** The five things a line can do to the variables of the loop. *)
Lemma step_cases (v : Vars) (line : string) :
  let t := trim line in
  (ignoredLine line = true /\ step v line = v)
  \/ (headerUrl line = None /\ startsWith "#EXTM3U" t = true /\ step v line = v)
  \/ (exists url, headerUrl line = Some url
        /\ step v line = mkVars (v_channels v) (v_groups v) (v_currentMeta v) (Some url))
  \/ (isExtinfLine line = true
      /\ step v line =
         mkVars (v_channels v)
           (match groupTitleOf line with
            | Some g => setAdd g (v_groups v)
            | None => v_groups v
            end)
           (parseExtinf (dropChars 8 t)) (v_tvgUrl v))
  \/ (isUrlLine line = true /\ JS.truthy (m_name (v_currentMeta v)) = false
      /\ step v line = v)
  \/ (isUrlLine line = true /\ JS.truthy (m_name (v_currentMeta v)) = true
      /\ step v line =
         mkVars (v_channels v
                   ++ [makeChannel (v_currentMeta v) t (List.length (v_channels v))])
           (v_groups v) emptyMeta (v_tvgUrl v)).
Proof.
  intros t. unfold step, ignoredLine, headerUrl, isExtinfLine, isUrlLine, groupTitleOf.
  fold t.
  destruct (isEmpty t) eqn:He; [left; auto |].
  destruct (startsWith "#EXTM3U" t) eqn:Hh.
  - destruct (matchAttr "tvg-url" t) as [url|]; [right; right; left; eauto |].
    right; left; auto.
  - destruct (startsWith "#EXTINF:" t) eqn:Hi; [do 3 right; left; auto |].
    destruct (startsWith "#" t) eqn:Hc; [left; auto |].
    destruct (JS.truthy (m_name (v_currentMeta v))) eqn:Hn.
    + do 5 right. auto.
    + do 4 right. left. auto.
Qed.

Lemma step_urlsPlain (v : Vars) (line : string) :
  urlsPlain v -> urlsPlain (step v line).
Proof.
  intros Hv.
  destruct (step_cases v line)
    as [[_ ->] | [(_ & _ & ->) | [(url & _ & ->) | [[_ ->] | [(_ & _ & ->) | (Hu & _ & ->)]]]]];
    try exact Hv.
  intros c Hc. simpl in Hc. apply in_app_or in Hc as [Hc | [<- | []]]; [apply Hv, Hc |].
  simpl. unfold isUrlLine in Hu.
  apply andb_true_iff in Hu as [He Hs]. apply negb_true_iff in He, Hs.
  split; [split; assumption | apply trim_idempotent].
Qed.

Lemma run_urlsPlain (lines : list string) : urlsPlain (run lines).
Proof.
  unfold run. apply (fold_left_invariant step urlsPlain).
  - intros v line. apply step_urlsPlain.
  - intros c [].
Qed.

(** X12.  Every channel [parseM3U] emits has a stream address that is not
    empty, is not a comment line and has no white space at either end; its
    group is not empty; and each optional attribute it carries (logo,
    tvg-id, tvg-name, catchup, catchup-source) has a non-empty value. *)
Theorem channel_fields_are_filled (m3uContent : string) (c : Channel) :
  In c (md_channels (parseM3U m3uContent)) ->
  plainUrl (ch_url c)
  /\ trimmed (ch_url c)
  /\ ch_group c <> ""
  /\ (forall value,
        In (Some value)
           [ch_logo c; ch_tvgId c; ch_tvgName c; ch_catchup c; ch_catchupSource c] ->
        value <> "").
Proof.
  intros Hc.
  destruct (run_urlsPlain (splitLines m3uContent) c Hc) as [Hplain Htrim].
  apply In_lookup in Hc as [i Hi]. simpl in Hi.
  destruct (parseM3U_channelsFromExtinf (splitLines m3uContent)) as [_ Hall].
  destruct (Hall i c Hi) as (infLine & url & -> & _).
  repeat split; try apply Hplain; try exact Htrim.
  - simpl. unfold JS.orDefault.
    destruct (matchAttr "group-title" infLine) as [g|] eqn:Hg; [| discriminate].
    pose proof (matchAttr_nonempty _ _ _ Hg) as Hne.
    apply truthy_Some in Hne. rewrite Hne. apply truthy_Some, Hne.
  - simpl. intros value [H | [H | [H | [H | [H | []]]]]];
      eapply matchAttr_nonempty; exact H.
Qed.

Lemma channel_fields_are_filled_witness :
  plainUrl "http://x/1".
Proof.
  apply (channel_fields_are_filled c6_playlist
           (mkChannel "news1" "News HD" "Info" "http://x/1" None (Some "news1")
              None None None)).
  vm_compute. left. reflexivity.
Defined.

Lemma step_groupsKnown (v : Vars) (line : string) :
  groupsKnown v -> groupsKnown (step v line).
Proof.
  intros [Hpend Hch].
  destruct (step_cases v line)
    as [[_ ->] | [(_ & _ & ->) | [(url & _ & ->) | [[Hi ->] | [(_ & _ & ->) | (_ & Hn & ->)]]]]];
    try (split; assumption).
  - unfold groupTitleOf. unfold isExtinfLine in Hi. rewrite Hi.
    split; simpl.
    + intros g Hg. rewrite Hg. apply setAdd_In. right. reflexivity.
    + intros c Hc. destruct (Hch c Hc) as [Hd | Hg]; [left; exact Hd | right].
      destruct (matchAttr "group-title" _); [apply setAdd_In; left |]; exact Hg.
  - split; simpl; [discriminate |].
    intros c Hc. apply in_app_or in Hc as [Hc | [<- | []]]; [apply Hch, Hc |].
    simpl. unfold JS.orDefault.
    destruct (m_group (v_currentMeta v)) as [g|] eqn:Hg; [| left; reflexivity].
    destruct (JS.truthy (Some g)); [right; apply Hpend; reflexivity | left; reflexivity].
Qed.

(** X13.  The group of every channel [parseM3U] emits is one of the groups
    the catalog lists, unless it is the default group, which stands for a
    metadata line without a group-title. *)
Theorem channel_group_is_listed (m3uContent : string) (c : Channel) :
  In c (md_channels (parseM3U m3uContent)) ->
  ch_group c = "Default" \/ In (ch_group c) (md_groups (parseM3U m3uContent)).
Proof.
  intros Hc. simpl in *.
  assert (Hinv : groupsKnown (run (splitLines m3uContent))).
  { unfold run. apply (fold_left_invariant step groupsKnown).
    - intros v line. apply step_groupsKnown.
    - split; [discriminate | intros c0 []]. }
  destruct (proj2 Hinv c Hc) as [Hd | Hg]; [left; exact Hd | right].
  apply sortBy_In, Hg.
Qed.

Lemma channel_group_is_listed_witness :
  "Info" = "Default" \/ In "Info" (md_groups (parseM3U c6_playlist)).
Proof.
  apply (channel_group_is_listed c6_playlist
           (mkChannel "news1" "News HD" "Info" "http://x/1" None (Some "news1")
              None None None)).
  vm_compute. left. reflexivity.
Defined.

End ParserLoop.

Section LinesOfAPlaylist.
Import JSString M3uParser.

Lemma fold_left_skip (keep : string -> bool) (lines : list string) (v : Vars) :
  (forall v0 line, keep line = false -> step v0 line = v0) ->
  fold_left step (List.filter keep lines) v = fold_left step lines v.
Proof.
  intros Hskip. revert v. induction lines as [|line lines IH]; intros v; [reflexivity |].
  cbn [List.filter]. destruct (keep line) eqn:E; cbn [fold_left].
  - apply IH.
  - rewrite (Hskip v line E). apply IH.
Qed.

(** A header line is a comment line, and is not empty. *)
Lemma header_line (t : string) :
  startsWith "#EXTM3U" t = true -> isEmpty t = false /\ startsWith "#" t = true.
Proof.
  intros H. destruct t as [|c t]; [discriminate H |].
  apply startsWith_cons in H as [<- _].
  split; [reflexivity | apply startsWith_cons; split; [reflexivity | destruct t; reflexivity]].
Qed.

Lemma step_ignored (v : Vars) (line : string) :
  ignoredLine line = true -> step v line = v.
Proof.
  intros Hig.
  destruct (step_cases v line)
    as [[_ E] | [(_ & _ & E) | [(url & Hh & E) | [[Hi E] | [(_ & _ & E) | (Hu & _ & E)]]]]];
    try exact E; exfalso;
    unfold ignoredLine, headerUrl, isExtinfLine, isUrlLine in *.
  - destruct (startsWith "#EXTM3U" (trim line)) eqn:Hs; [| discriminate].
    destruct (header_line _ Hs) as [He _].
    rewrite He, andb_false_r in Hig. discriminate.
  - destruct (extinf_line _ Hi) as [He Hm]. rewrite He, Hi, andb_false_r in Hig.
    discriminate.
  - apply andb_true_iff in Hu as [He Hs]. apply negb_true_iff in He, Hs.
    rewrite He, Hs in Hig. discriminate.
Qed.

(** X14.  Blank lines and comment lines other than the header and the
    metadata lines may stand anywhere: a text whose lines are those of
    another text without its blank and comment lines parses to the same
    catalog. *)
Theorem blank_and_comment_lines_are_skipped (m3uContent stripped : string) :
  splitLines stripped
  = List.filter (fun l => negb (ignoredLine l)) (splitLines m3uContent) ->
  parseM3U stripped = parseM3U m3uContent.
Proof.
  intros Hlines. unfold parseM3U, run. rewrite Hlines.
  rewrite (fold_left_skip (fun l => negb (ignoredLine l))); [reflexivity |].
  intros v line Hig. apply negb_false_iff in Hig. apply step_ignored, Hig.
Qed.

Lemma blank_and_comment_lines_are_skipped_witness :
  parseM3U c10_playlist = parseM3U commented_playlist.
Proof.
  apply (blank_and_comment_lines_are_skipped commented_playlist c10_playlist).
  reflexivity.
Defined.

Lemma step_tvgUrl (v : Vars) (line : string) :
  v_tvgUrl (step v line) =
  match headerUrl line with Some url => Some url | None => v_tvgUrl v end.
Proof.
  destruct (step_cases v line)
    as [[Hig E] | [(Hh & _ & E) | [(url & Hh & E) | [[Hi E] | [(Hu & _ & E) | (Hu & _ & E)]]]]];
    rewrite E; try (rewrite Hh; reflexivity); simpl;
    unfold ignoredLine, headerUrl, isExtinfLine, isUrlLine in *.
  - destruct (startsWith "#EXTM3U" (trim line)) eqn:Hs; [| reflexivity].
    exfalso. destruct (header_line _ Hs) as [He _].
    rewrite He, andb_false_r in Hig. discriminate.
  - destruct (extinf_line _ Hi) as [_ ->]. reflexivity.
  - apply andb_true_iff in Hu as [_ Hs]. apply negb_true_iff in Hs.
    destruct (startsWith "#EXTM3U" (trim line)) eqn:Hm; [| reflexivity].
    exfalso. destruct (header_line _ Hm) as [_ Hc]. congruence.
  - apply andb_true_iff in Hu as [_ Hs]. apply negb_true_iff in Hs.
    destruct (startsWith "#EXTM3U" (trim line)) eqn:Hm; [| reflexivity].
    exfalso. destruct (header_line _ Hm) as [_ Hc]. congruence.
Qed.

Lemma run_tvgUrl (lines : list string) (v : Vars) :
  v_tvgUrl (fold_left step lines v) =
  match last (omap headerUrl lines) with Some url => Some url | None => v_tvgUrl v end.
Proof.
  revert v. induction lines as [|line lines IH]; intros v; [reflexivity |].
  cbn [fold_left omap list_omap]. rewrite IH, step_tvgUrl.
  destruct (headerUrl line) as [url|]; [| reflexivity].
  rewrite last_cons. destruct (last (omap headerUrl lines)); reflexivity.
Qed.

(** X18.  The EPG address of the catalog is the one declared by the last
    header line that declares one; a text without such a line has none. *)
Theorem tvgUrl_is_the_last_declared (m3uContent : string) :
  md_tvgUrl (parseM3U m3uContent)
  = last (omap headerUrl (splitLines m3uContent)).
Proof.
  simpl. unfold run. rewrite run_tvgUrl.
  destruct (last (omap headerUrl (splitLines m3uContent))); reflexivity.
Qed.

Lemma step_counts (v : Vars) (line : string) :
  (List.length (v_channels (step v line)) + pendingCount (step v line)
   <= List.length (v_channels v) + pendingCount v
      + (if isExtinfLine line then 1 else 0))%nat
  /\ (List.length (v_channels (step v line))
      <= List.length (v_channels v) + (if isUrlLine line then 1 else 0))%nat.
Proof.
  destruct (step_cases v line)
    as [[_ E] | [(_ & _ & E) | [(url & _ & E) | [[Hi E] | [(Hu & Hn & E) | (Hu & Hn & E)]]]]];
    rewrite E; unfold pendingCount; simpl; try lia.
  - rewrite Hi. destruct (JS.truthy _), (JS.truthy _); lia.
  - rewrite Hu, Hn, length_app. simpl. lia.
Qed.

Lemma run_counts (lines : list string) (v : Vars) :
  (List.length (v_channels (fold_left step lines v))
     + pendingCount (fold_left step lines v)
   <= List.length (v_channels v) + pendingCount v
      + List.length (List.filter isExtinfLine lines))%nat
  /\ (List.length (v_channels (fold_left step lines v))
      <= List.length (v_channels v) + List.length (List.filter isUrlLine lines))%nat.
Proof.
  revert v. induction lines as [|line lines IH]; intros v; cbn [fold_left List.filter].
  - simpl. lia.
  - destruct (IH (step v line)) as [IH1 IH2].
    destruct (step_counts v line) as [S1 S2].
    destruct (isExtinfLine line), (isUrlLine line); simpl; lia.
Qed.

(** X17.  A metadata line yields at most one channel, and so does a URL
    line: the catalog has no more channels than the text has metadata
    lines, and no more than it has URL lines.  A text without metadata
    lines, or without URL lines, yields no channel. *)
Theorem channels_are_bounded_by_lines (m3uContent : string) :
  (List.length (md_channels (parseM3U m3uContent))
   <= List.length (List.filter isExtinfLine (splitLines m3uContent)))%nat
  /\ (List.length (md_channels (parseM3U m3uContent))
      <= List.length (List.filter isUrlLine (splitLines m3uContent)))%nat.
Proof.
  simpl. unfold run.
  destruct (run_counts (splitLines m3uContent) initial) as [H1 H2].
  change (pendingCount initial) with 0%nat in H1.
  change (List.length (v_channels initial)) with 0%nat in H1, H2. lia.
Qed.

End LinesOfAPlaylist.

Section LineTerminators.
Import JSString M3uParser.

Lemma noLineBreak_cons (c : ascii) (s : string) :
  noLineBreak (String c s) ->
  Ascii.eqb c LF = false /\ Ascii.eqb c CR = false /\ noLineBreak s.
Proof.
  unfold noLineBreak. simpl. intros H.
  apply andb_true_iff in H as [Hc Hs]. apply andb_true_iff in Hc as [Hl Hr].
  apply negb_true_iff in Hl, Hr. auto.
Qed.

Lemma splitLines_nonempty (s : string) : splitLines s <> [].
Proof.
  destruct s as [|c s]; [discriminate |]. cbn [splitLines].
  destruct (splitLines s); [discriminate |].
  destruct (Ascii.eqb c LF); [discriminate |].
  destruct (Ascii.eqb c CR && _); discriminate.
Qed.

Lemma splitLines_LF (s rest : string) :
  noLineBreak s -> splitLines (s ++ String LF rest) = s :: splitLines rest.
Proof.
  induction s as [|c s IH]; intros Hs.
  - change ("" ++ String LF rest) with (String LF rest). cbn [splitLines].
    destruct (splitLines rest) as [|first others] eqn:E; [| reflexivity].
    exfalso. apply (splitLines_nonempty rest E).
  - apply noLineBreak_cons in Hs as (Hl & Hr & Hs).
    change (String c s ++ String LF rest) with (String c (s ++ String LF rest)).
    cbn [splitLines]. rewrite (IH Hs), Hl, Hr. reflexivity.
Qed.

Lemma splitLines_CRLF (s rest : string) :
  noLineBreak s ->
  splitLines (s ++ String CR (String LF rest)) = s :: splitLines rest.
Proof.
  induction s as [|c s IH]; intros Hs.
  - change ("" ++ String CR (String LF rest)) with (String CR (String LF rest)).
    pose proof (splitLines_LF "" rest eq_refl) as Hl.
    change ("" ++ String LF rest) with (String LF rest) in Hl.
    change (splitLines (String CR (String LF rest)))
      with (match splitLines (String LF rest) with
            | first :: others =>
                if Ascii.eqb CR LF then EmptyString :: first :: others
                else if Ascii.eqb CR CR && startsWith (String LF EmptyString) (String LF rest)
                     then first :: others
                     else String CR first :: others
            | [] => [String CR EmptyString]
            end).
    assert (Hsw : startsWith (String LF EmptyString) (String LF rest) = true).
    { apply startsWith_cons. split; [reflexivity | destruct rest; reflexivity]. }
    rewrite Hl, Hsw. reflexivity.
  - apply noLineBreak_cons in Hs as (Hl & Hr & Hs).
    change (String c s ++ String CR (String LF rest))
      with (String c (s ++ String CR (String LF rest))).
    cbn [splitLines]. rewrite (IH Hs), Hl, Hr. reflexivity.
Qed.

Lemma splitLines_plain (s : string) : noLineBreak s -> splitLines s = [s].
Proof.
  induction s as [|c s IH]; intros Hs; [reflexivity |].
  apply noLineBreak_cons in Hs as (Hl & Hr & Hs).
  cbn [splitLines]. rewrite (IH Hs), Hl, Hr. reflexivity.
Qed.

Lemma splitLines_joinLines_LF (lines : list string) :
  lines <> [] -> Forall noLineBreak lines ->
  splitLines (joinLines (String LF EmptyString) lines) = lines.
Proof.
  induction lines as [|l lines IH]; intros Hne Hall; [contradiction |].
  apply Forall_cons_1 in Hall as [Hl Hall].
  destruct lines as [|l2 lines]; [apply splitLines_plain, Hl |].
  change (joinLines (String LF EmptyString) (l :: l2 :: lines))
    with (l ++ String LF (joinLines (String LF EmptyString) (l2 :: lines))).
  rewrite splitLines_LF by exact Hl. f_equal. apply IH; [discriminate | exact Hall].
Qed.

Lemma splitLines_joinLines_CRLF (lines : list string) :
  lines <> [] -> Forall noLineBreak lines ->
  splitLines (joinLines (String CR (String LF EmptyString)) lines) = lines.
Proof.
  induction lines as [|l lines IH]; intros Hne Hall; [contradiction |].
  apply Forall_cons_1 in Hall as [Hl Hall].
  destruct lines as [|l2 lines]; [apply splitLines_plain, Hl |].
  change (joinLines (String CR (String LF EmptyString)) (l :: l2 :: lines))
    with (l ++ String CR (String LF
            (joinLines (String CR (String LF EmptyString)) (l2 :: lines)))).
  rewrite splitLines_CRLF by exact Hl. f_equal. apply IH; [discriminate | exact Hall].
Qed.

(** X15.  Either line terminator will do: lines without a line break,
    joined with LF or with CR LF, split into the same lines again, so the
    two texts parse to the same catalog. *)
Theorem line_terminators_are_equivalent (lines : list string) :
  lines <> [] ->
  Forall noLineBreak lines ->
  splitLines (joinLines (String LF EmptyString) lines) = lines
  /\ splitLines (joinLines (String CR (String LF EmptyString)) lines) = lines
  /\ parseM3U (joinLines (String LF EmptyString) lines)
     = parseM3U (joinLines (String CR (String LF EmptyString)) lines).
Proof.
  intros Hne Hall.
  pose proof (splitLines_joinLines_LF lines Hne Hall) as Hlf.
  pose proof (splitLines_joinLines_CRLF lines Hne Hall) as Hcrlf.
  repeat split; [exact Hlf | exact Hcrlf |].
  unfold parseM3U. rewrite Hlf, Hcrlf. reflexivity.
Qed.

Lemma line_terminators_are_equivalent_witness :
  parseM3U (joinLines (String LF EmptyString) ["#EXTINF:-1,Solo"; "http://x/2"])
  = parseM3U (joinLines (String CR (String LF EmptyString))
                ["#EXTINF:-1,Solo"; "http://x/2"]).
Proof.
  apply (line_terminators_are_equivalent ["#EXTINF:-1,Solo"; "http://x/2"]).
  - discriminate.
  - repeat constructor.
Defined.

End LineTerminators.

Section Attributes.
Import JSString M3uParser.

Lemma append_assoc (a b c : string) : (a ++ b) ++ c = a ++ (b ++ c).
Proof.
  induction a as [|x a IH]; [reflexivity |].
  change (String x ((a ++ b) ++ c) = String x (a ++ b ++ c)). f_equal. exact IH.
Qed.

Lemma startsWith_app (a b : string) : startsWith a (a ++ b) = true.
Proof.
  induction a as [|x a IH]; [destruct b; reflexivity |].
  change (String x a ++ b) with (String x (a ++ b)).
  apply startsWith_cons. auto.
Qed.

Lemma dropChars_app (a b : string) : dropChars (String.length a) (a ++ b) = b.
Proof. induction a as [|x a IH]; simpl; [destruct b; reflexivity | exact IH]. Qed.

Lemma takeWhile_noQuote (a b : string) :
  noQuote a ->
  takeWhile (fun c => negb (Ascii.eqb c quote)) (a ++ String quote b) = a.
Proof.
  unfold noQuote. induction a as [|x a IH]; simpl; intros Ha.
  - reflexivity.
  - apply andb_true_iff in Ha as [Hx Ha]. rewrite Hx, IH by exact Ha. reflexivity.
Qed.

(** A text that starts with [a] and then a quote has its first quote right
    after [a], when [a] has none. *)
Lemma startsWith_first_quote (a b text : string) :
  noQuote a ->
  startsWith (a ++ String quote b) text = true ->
  String.length (takeWhile (fun c => negb (Ascii.eqb c quote)) text) = String.length a.
Proof.
  unfold noQuote. revert text. induction a as [|x a IH]; intros text Ha Hs.
  - destruct text as [|c text]; [discriminate Hs |].
    change ("" ++ String quote b) with (String quote b) in Hs.
    apply startsWith_cons in Hs as [<- _]. reflexivity.
  - destruct text as [|c text]; [discriminate Hs |].
    change (String x a ++ String quote b) with (String x (a ++ String quote b)) in Hs.
    apply startsWith_cons in Hs as [<- Hs].
    simpl in Ha. apply andb_true_iff in Ha as [Hx Ha].
    simpl. rewrite Hx. simpl. f_equal. apply IH; assumption.
Qed.

Lemma noQuote_app (a b : string) : noQuote a -> noQuote b -> noQuote (a ++ b).
Proof. unfold noQuote. intros Ha Hb. rewrite allChars_app, Ha, Hb. reflexivity. Qed.

Lemma length_append (a b : string) :
  String.length (a ++ b) = (String.length a + String.length b)%nat.
Proof.
  induction a as [|x a IH]; [reflexivity |].
  change (S (String.length (a ++ b)) = S (String.length a + String.length b)).
  f_equal. exact IH.
Qed.

Lemma matchAttrHere_written (key value post : string) :
  noQuote value -> value <> "" ->
  matchAttrHere key (writeAttr key value ++ post) = Some value.
Proof.
  intros Hv Hne. unfold matchAttrHere, writeAttr.
  set (opening := key ++ String "=" (String quote "")).
  replace ((key ++ String "=" (String quote "") ++ value ++ String quote "") ++ post)
    with (opening ++ (value ++ String quote post)).
  2:{ unfold opening. rewrite !append_assoc. reflexivity. }
  rewrite startsWith_app, dropChars_app, takeWhile_noQuote by exact Hv.
  rewrite dropChars_app.
  assert (Hq : startsWith (String quote "") (String quote post) = true).
  { apply startsWith_cons. split; [reflexivity | destruct post; reflexivity]. }
  rewrite Hq. destruct value; [contradiction | reflexivity].
Qed.

(** X16.  Reading back an attribute: on a line that holds no quote before
    it, an attribute written with a non-empty value free of quotes is
    matched with exactly that value, whatever follows. *)
Theorem written_attribute_is_read_back (key pre value post : string) :
  noQuote key -> noQuote pre -> noQuote value -> value <> "" ->
  matchAttr key (pre ++ writeAttr key value ++ post) = Some value.
Proof.
  intros Hk Hp Hv Hne. induction pre as [|c pre IH].
  - change ("" ++ writeAttr key value ++ post) with (writeAttr key value ++ post).
    destruct (writeAttr key value ++ post) eqn:E; simpl;
      rewrite <- E, (matchAttrHere_written key value post Hv Hne); reflexivity.
  - change (String c pre ++ writeAttr key value ++ post)
      with (String c (pre ++ writeAttr key value ++ post)).
    cbn [matchAttr].
    assert (Hp' : noQuote pre).
    { unfold noQuote in *. simpl in Hp. apply andb_true_iff in Hp. tauto. }
    replace (matchAttrHere key (String c (pre ++ writeAttr key value ++ post)))
      with (@None string); [apply IH, Hp' |].
    symmetry. unfold matchAttrHere.
    destruct (startsWith _ _) eqn:Hs; [| reflexivity]. exfalso.
    replace (key ++ String "=" (String quote ""))
      with ((key ++ String "=" "") ++ String quote "") in Hs
      by (rewrite append_assoc; reflexivity).
    apply startsWith_first_quote in Hs;
      [| apply noQuote_app; [exact Hk | reflexivity]].
    change (String c (pre ++ writeAttr key value ++ post))
      with (String c pre ++ writeAttr key value ++ post) in Hs.
    unfold writeAttr in Hs.
    replace (String c pre ++ (key ++ String "=" (String quote "") ++ value ++ String quote "") ++ post)
      with ((String c pre ++ key ++ String "=" "") ++ String quote (value ++ String quote post))
      in Hs.
    2:{ rewrite !append_assoc. reflexivity. }
    rewrite takeWhile_noQuote in Hs.
    2:{ apply noQuote_app; [exact Hp | apply noQuote_app; [exact Hk | reflexivity]]. }
    rewrite !length_append in Hs. simpl in Hs. lia.
Qed.

Lemma written_attribute_is_read_back_witness :
  matchAttr "group-title"
    ("-1 " ++ writeAttr "group-title" "Info" ++ " tvg-id=x,News HD")
  = Some "Info".
Proof.
  apply (written_attribute_is_read_back "group-title" "-1 " "Info" " tvg-id=x,News HD").
  - reflexivity.
  - reflexivity.
  - reflexivity.
  - discriminate.
Defined.

End Attributes.

(** ** The player page, in full *)

Section SeekAndPlayback.
Import PlayerPage.

Variable build : Channel -> JS.Date -> Z -> JS.Outcome (list MediaSegment).

Lemma handleVideoSeek_frame (N : Z) (seekTime : JS.Date) (st : State) :
  sameButStreamStart (handleVideoSeek N seekTime st) st.
Proof.
  unfold handleVideoSeek, sameButStreamStart.
  destruct (JS.gt _ _); [destruct (JS.lt _ _) |]; repeat split.
Qed.

(** X19.  Where a seek can land: after [handleVideoSeek] with a valid
    requested time the stream start is a valid date that is not in the
    future, and it is never strictly inside the last 30 seconds: it is
    [now] itself or at least 30 seconds old.  No other cell of the page
    changes. *)
Theorem seek_lands_outside_the_last_30_seconds (N t : Z) (st : State) :
  exists e,
    streamStartTime (handleVideoSeek N (Some t) st) = Some e
    /\ e <= N
    /\ (e = N \/ e <= N - 30000)
    /\ sameButStreamStart (handleVideoSeek N (Some t) st) st.
Proof.
  pose proof (handleVideoSeek_frame N (Some t) st) as Hframe.
  revert Hframe. unfold handleVideoSeek.
  change (JS.gt (JS.getTime (Some t)) (Some (N - 30 * 1000))) with (N - 30000 <? t).
  change (30 * 1000) with 30000.
  destruct (Z.ltb_spec (N - 30000) t) as [Hnear | Hfar].
  - destruct (JS.lt (streamStartTime st) (Some t)); intros Hframe.
    + exists N. split; [reflexivity |]. split; [lia |]. split; [left; reflexivity | exact Hframe].
    + exists (N - 30000). split; [reflexivity |]. split; [lia |].
      split; [right; lia | exact Hframe].
  - intros Hframe. exists t. split; [reflexivity |]. split; [lia |].
    split; [right; lia | exact Hframe].
Qed.

Lemma playbackEffect_live (N' : Z) (st : State) (co : ChannelObj) (s : Z) :
  currentChannel st = Some co ->
  streamStartTime st = Some s ->
  N' - 3000 < s ->
  exists st', playbackEffect build N' st = JS.Returned st'
              /\ playsLive (chan co) st'
              /\ currentChannel st' = Some co.
Proof.
  intros Hc Hs Hlt. unfold playbackEffect, JS.gt, JS.getTime. rewrite Hc, Hs. simpl.
  destruct (Z.ltb_spec (N' - 3000) s); [| lia].
  eexists. split; [reflexivity |]. repeat split. simpl. exact Hc.
Qed.

(** X20.  Seeking near the live edge, then the playback effect.  A seek to
    within the last 30 seconds that moves later than the current stream
    start puts the channel back on live: one segment, the channel's own
    URL, duration 0.  One that does not move later, on a channel with
    catchup, asks the segment builder for [now - 30 s] and plays what it
    returns in catchup mode. *)
Theorem seek_near_the_live_edge
  (N N' t : Z) (st : State) (co : ChannelObj) :
  currentChannel st = Some co ->
  N - 30000 < t ->
  N <= N' < N + 3000 ->
  (JS.lt (streamStartTime st) (Some t) = true ->
     exists st', playbackEffect build N' (handleVideoSeek N (Some t) st) = JS.Returned st'
                 /\ playsLive (chan co) st')
  /\ (JS.lt (streamStartTime st) (Some t) = false ->
      hasCatchup (chan co) ->
      playbackEffect build N' (handleVideoSeek N (Some t) st) =
      match build (chan co) (Some (N - 30000)) (catchupTailOffset st) with
      | JS.Returned segs =>
          JS.Returned (setPlayMode catchup (setPlaybackSegments segs
                         (setStreamStartTime (Some (N - 30000)) st)))
      | JS.Thrown m => JS.Thrown m
      end).
Proof.
  intros Hc Ht HN.
  assert (Hgt : JS.gt (JS.getTime (Some t)) (Some (N - 30 * 1000)) = true).
  { unfold JS.gt, JS.getTime. simpl. apply Z.ltb_lt. lia. }
  unfold handleVideoSeek. rewrite Hgt. split.
  - intros ->.
    destruct (playbackEffect_live N' (setStreamStartTime (Some N) st) co N)
      as (st' & Hst' & Hlive & _); [exact Hc | reflexivity | lia |].
    exists st'. auto.
  - intros -> [Hcap Hsrc].
    unfold playbackEffect, JS.gt, JS.getTime. simpl. rewrite Hc.
    destruct (Z.ltb_spec (N' - 3000) (N - 30 * 1000)); [lia |].
    rewrite Hcap, Hsrc. reflexivity.
Qed.

End SeekAndPlayback.

Lemma seek_near_the_live_edge_witness :
  exists st', PlayerPage.playbackEffect strict_builder (sample_now + 1000)
                (PlayerPage.handleVideoSeek sample_now (Some (sample_now - 5000)) c3_state)
              = JS.Returned st'
              /\ playsLive (PlayerPage.chan news_channel) st'.
Proof.
  apply (proj1 (seek_near_the_live_edge strict_builder sample_now (sample_now + 1000) (sample_now - 5000)
                  c3_state news_channel eq_refl eq_refl
                  ltac:(vm_compute; split; congruence))).
  reflexivity.
Defined.


Section BuilderUse.
Import PlayerPage.

(** X24.  The segment builder is consulted for channels with catchup
    capability only: two builders that agree on every such channel give
    the same playback effect on every state. *)
Theorem builder_is_used_for_capable_channels_only
  (build1 build2 : Channel -> JS.Date -> Z -> JS.Outcome (list MediaSegment)) :
  (forall c start offset, hasCatchup c -> build1 c start offset = build2 c start offset) ->
  forall now st, playbackEffect build1 now st = playbackEffect build2 now st.
Proof.
  intros Hagree now st. unfold playbackEffect.
  destruct (currentChannel st) as [co|]; [| reflexivity].
  destruct (JS.gt _ _); [reflexivity |].
  destruct (JS.truthy (ch_catchup (chan co))) eqn:Hc; [| reflexivity].
  destruct (JS.truthy (ch_catchupSource (chan co))) eqn:Hs; [| reflexivity].
  simpl. rewrite (Hagree (chan co)); [reflexivity | split; assumption].
Qed.

Lemma builder_is_used_for_capable_channels_only_witness :
  playbackEffect strict_builder sample_now shifted_state
  = playbackEffect lenient_builder sample_now shifted_state.
Proof.
  apply (builder_is_used_for_capable_channels_only strict_builder lenient_builder).
  intros c start offset [Hc Hs]. unfold strict_builder, lenient_builder.
  rewrite Hc, Hs. reflexivity.
Defined.

End BuilderUse.

Section Navigation.
Import PlayerPage.

Lemma at_lookup (l : list ChannelObj) (k : nat) :
  JS.at_ l (Z.of_nat k) = l !! k.
Proof.
  unfold JS.at_. destruct (Z.ltb_spec (Z.of_nat k) 0); [lia |].
  rewrite Nat2Z.id. revert k H. induction l as [|x l IH]; intros [|k] Hk; try reflexivity.
  simpl. apply IH. lia.
Qed.

Lemma at_In (l : list ChannelObj) (i : Z) :
  0 <= i < Z.of_nat (List.length l) ->
  exists c, JS.at_ l i = Some c /\ In c l.
Proof.
  intros Hi. unfold JS.at_. destruct (Z.ltb_spec i 0); [lia |].
  destruct (nth_error l (Z.to_nat i)) as [c|] eqn:E.
  - exists c. split; [reflexivity |]. eapply nth_error_In. exact E.
  - apply nth_error_None in E. lia.
Qed.

Lemma findIndexFrom_range (l : list ChannelObj) (i : Z) (cur : ChannelObj) :
  findIndexFrom i cur l = -1
  \/ i <= findIndexFrom i cur l < i + Z.of_nat (List.length l).
Proof.
  revert i. induction l as [|x l IH]; intros i; [left; reflexivity |].
  cbn [findIndexFrom List.length]. destruct (sameObject x cur).
  - right. lia.
  - destruct (IH (i + 1)) as [E | E]; [left; exact E | right; lia].
Qed.

Lemma findIndexFrom_absent (l : list ChannelObj) (i : Z) (cur : ChannelObj) :
  (forall c, In c l -> addr c <> addr cur) ->
  findIndexFrom i cur l = -1.
Proof.
  revert i. induction l as [|x l IH]; intros i Habs; [reflexivity |].
  cbn [findIndexFrom]. unfold sameObject.
  destruct (Nat.eqb_spec (addr x) (addr cur)) as [E | _].
  - exfalso. apply (Habs x); [left; reflexivity | exact E].
  - apply IH. intros c Hc. apply Habs. right. exact Hc.
Qed.

Lemma findIndexFrom_lookup (l : list ChannelObj) (i : Z) (k : nat) (cur : ChannelObj) :
  distinctObjects l ->
  l !! k = Some cur ->
  findIndexFrom i cur l = i + Z.of_nat k.
Proof.
  unfold distinctObjects. revert i k. induction l as [|x l IH]; intros i k Hnd Hk.
  - discriminate.
  - rewrite fmap_cons in Hnd. apply NoDup_cons in Hnd as [Hx Hnd].
    cbn [findIndexFrom]. unfold sameObject. destruct k as [|k].
    + simpl in Hk. injection Hk as ->. rewrite Nat.eqb_refl. lia.
    + simpl in Hk. destruct (Nat.eqb_spec (addr x) (addr cur)) as [E | _].
      * exfalso. apply Hx. rewrite E. apply list_elem_of_fmap.
        exists cur. split; [reflexivity |]. eapply list_elem_of_lookup_2. exact Hk.
      * rewrite (IH (i + 1) k Hnd Hk). lia.
Qed.

Lemma navigate_unfold (now : Z) (st : State) (md : Metadata) (cur : ChannelObj)
      (target : NavTarget) :
  metadata st = Some md ->
  channels md <> [] ->
  currentChannel st = Some cur ->
  target = prev \/ target = next ->
  handleChannelNavigate now target st =
  selectChannel now
    (JS.at_ (channels md)
       (let len := Z.of_nat (List.length (channels md)) in
        let currentIndex := findIndex cur (channels md) in
        match target with
        | prev => if 0 <? currentIndex then currentIndex - 1 else len - 1
        | _ => if currentIndex <? len - 1 then currentIndex + 1 else 0
        end)) st.
Proof.
  intros Hmd Hne Hcur Hdir. unfold handleChannelNavigate. rewrite Hmd, Hcur.
  destruct (Z.eqb_spec (Z.of_nat (List.length (channels md))) 0) as [E | _].
  - destruct (channels md); [congruence | discriminate].
  - destruct Hdir as [-> | ->]; reflexivity.
Qed.

(** X21.  Stepping never leaves the catalog.  In a non-empty catalog with
    some channel current, [prev] and [next] always make an element of the
    catalog current (the array access is never out of range) and restart
    the stream at [now].  When the current channel is no object of the
    catalog, as after a reload of the playlist, [next] selects the first
    channel and [prev] the last. *)
Theorem stepping_stays_in_the_catalog
  (now : Z) (st : State) (md : Metadata) (cur : ChannelObj) :
  metadata st = Some md ->
  channels md <> [] ->
  currentChannel st = Some cur ->
  (forall target, target = prev \/ target = next ->
     exists c, currentChannel (handleChannelNavigate now target st) = Some c
               /\ In c (channels md)
               /\ streamStartTime (handleChannelNavigate now target st) = Some now)
  /\ ((forall c, In c (channels md) -> addr c <> addr cur) ->
      currentChannel (handleChannelNavigate now next st) = head (channels md)
      /\ currentChannel (handleChannelNavigate now prev st) = last (channels md)).
Proof.
  intros Hmd Hne Hcur.
  assert (Hlen : 0 < Z.of_nat (List.length (channels md))).
  { destruct (channels md); [congruence | cbn [List.length]; lia]. }
  split.
  - intros target Hdir.
    rewrite (navigate_unfold now st md cur target Hmd Hne Hcur Hdir).
    cbv zeta. unfold findIndex.
    pose proof (findIndexFrom_range (channels md) 0 cur) as Hr.
    set (idx := findIndexFrom 0 cur (channels md)) in *.
    set (len := Z.of_nat (List.length (channels md))) in *.
    destruct (at_In (channels md)
                (match target with
                 | prev => if 0 <? idx then idx - 1 else len - 1
                 | _ => if idx <? len - 1 then idx + 1 else 0
                 end)) as (c & Hat & Hin).
    { fold len. destruct Hdir as [-> | ->].
      - destruct (Z.ltb_spec 0 idx); lia.
      - destruct (Z.ltb_spec idx (len - 1)); lia. }
    exists c. rewrite currentChannel_select. split; [exact Hat |].
    split; [exact Hin | reflexivity].
  - intros Habs.
    rewrite (navigate_unfold now st md cur next Hmd Hne Hcur (or_intror eq_refl)).
    rewrite (navigate_unfold now st md cur prev Hmd Hne Hcur (or_introl eq_refl)).
    cbv zeta. unfold findIndex.
    rewrite (findIndexFrom_absent (channels md) 0 cur Habs).
    rewrite !currentChannel_select.
    destruct (Z.ltb_spec (-1) (Z.of_nat (List.length (channels md)) - 1)); [| lia].
    change (0 <? -1) with false. cbv iota. split.
    + destruct (channels md); [congruence | reflexivity].
    + destruct (channels md) as [|x l] using rev_ind; [congruence |].
      rewrite last_snoc. rewrite length_app. cbn [List.length].
      replace (Z.of_nat (List.length l + 1) - 1) with (Z.of_nat (List.length l)) by lia.
      apply at_last.
Qed.

Lemma stepping_stays_in_the_catalog_witness :
  currentChannel (handleChannelNavigate sample_now next foreign_state) = head c7_objects
  /\ currentChannel (handleChannelNavigate sample_now prev foreign_state) = last c7_objects.
Proof.
  apply (proj2 (stepping_stays_in_the_catalog sample_now foreign_state c7_metadata
                  catchup_channel eq_refl ltac:(discriminate) eq_refl)).
  intros c Hc. vm_compute in Hc. vm_compute.
  destruct Hc as [<- | [<- | [<- | []]]]; discriminate.
Defined.

Lemma navigate_index (now : Z) (st : State) (md : Metadata) (cur : ChannelObj) (k : nat) :
  metadata st = Some md ->
  distinctObjects (channels md) ->
  channels md !! k = Some cur ->
  currentChannel st = Some cur ->
  let n := List.length (channels md) in
  handleChannelNavigate now next st
  = selectChannel now (channels md !! (if (k + 1 <? n)%nat then k + 1 else 0)%nat) st
  /\ handleChannelNavigate now prev st
     = selectChannel now (channels md !! (if (0 <? k)%nat then k - 1 else n - 1)%nat) st.
Proof.
  intros Hmd Hnd Hk Hcur n.
  assert (Hkn : (k < n)%nat) by (eapply lookup_lt_Some; exact Hk).
  assert (Hne : channels md <> []).
  { intros E. rewrite E in Hk. discriminate. }
  rewrite (navigate_unfold now st md cur next Hmd Hne Hcur (or_intror eq_refl)).
  rewrite (navigate_unfold now st md cur prev Hmd Hne Hcur (or_introl eq_refl)).
  cbv zeta. unfold findIndex. rewrite (findIndexFrom_lookup _ 0 k cur Hnd Hk).
  fold n. split; f_equal.
  - destruct (Z.ltb_spec (0 + Z.of_nat k) (Z.of_nat n - 1));
      destruct (Nat.ltb_spec (k + 1) n); try lia.
    + replace (0 + Z.of_nat k + 1) with (Z.of_nat (k + 1)) by lia. apply at_lookup.
    + apply (at_lookup _ 0).
  - destruct (Z.ltb_spec 0 (0 + Z.of_nat k));
      destruct (Nat.ltb_spec 0 k); try lia.
    + replace (0 + Z.of_nat k - 1) with (Z.of_nat (k - 1)) by lia. apply at_lookup.
    + replace (Z.of_nat n - 1) with (Z.of_nat (n - 1)) by lia. apply at_lookup.
Qed.

(** X22.  [next] and [prev] undo each other.  When the catalog consists
    of distinct objects and the current channel is one of them, stepping
    forward and then back, or back and then forward, makes the same
    channel current again, wrapping included; the second step may happen
    at a later time. *)
Theorem next_and_prev_undo_each_other
  (now now' : Z) (st : State) (md : Metadata) (cur : ChannelObj) :
  metadata st = Some md ->
  distinctObjects (channels md) ->
  In cur (channels md) ->
  currentChannel st = Some cur ->
  currentChannel (handleChannelNavigate now' prev (handleChannelNavigate now next st))
    = Some cur
  /\ currentChannel (handleChannelNavigate now' next (handleChannelNavigate now prev st))
    = Some cur.
Proof.
  intros Hmd Hnd Hin Hcur.
  apply list_elem_of_In, list_elem_of_lookup in Hin as [k Hk].
  assert (Hkn : (k < List.length (channels md))%nat) by (eapply lookup_lt_Some; exact Hk).
  destruct (navigate_index now st md cur k Hmd Hnd Hk Hcur) as [Hnext Hprev].
  cbv zeta in Hnext, Hprev. rewrite Hnext, Hprev. clear Hnext Hprev.
  set (n := List.length (channels md)) in *.
  split.
  - set (j := (if (k + 1 <? n)%nat then k + 1 else 0)%nat).
    assert (Hj : (j < n)%nat) by (subst j; destruct (Nat.ltb_spec (k + 1) n); lia).
    destruct (lookup_lt_is_Some_2 (channels md) j Hj) as [c Hc]. rewrite Hc.
    destruct (navigate_index now' (selectChannel now (Some c) st) md c j Hmd Hnd Hc eq_refl)
      as [_ Hprev].
    cbv zeta in Hprev. rewrite Hprev, currentChannel_select. rewrite <- Hk. f_equal.
    fold n. subst j. destruct (Nat.ltb_spec (k + 1) n).
    + destruct (Nat.ltb_spec 0 (k + 1)); lia.
    + change (0 <? 0)%nat with false. cbv iota. lia.
  - set (j := (if (0 <? k)%nat then k - 1 else n - 1)%nat).
    assert (Hj : (j < n)%nat) by (subst j; destruct (Nat.ltb_spec 0 k); lia).
    destruct (lookup_lt_is_Some_2 (channels md) j Hj) as [c Hc]. rewrite Hc.
    destruct (navigate_index now' (selectChannel now (Some c) st) md c j Hmd Hnd Hc eq_refl)
      as [Hnext _].
    cbv zeta in Hnext. rewrite Hnext, currentChannel_select. rewrite <- Hk. f_equal.
    fold n. subst j. destruct (Nat.ltb_spec 0 k).
    + destruct (Nat.ltb_spec (k - 1 + 1) n); lia.
    + destruct (Nat.ltb_spec (n - 1 + 1) n); lia.
Qed.

Lemma next_and_prev_undo_each_other_witness :
  currentChannel (handleChannelNavigate (sample_now + 5000) prev
                    (handleChannelNavigate sample_now next c7_state))
    = PlayerPage.currentChannel c7_state
  /\ currentChannel (handleChannelNavigate (sample_now + 5000) next
                    (handleChannelNavigate sample_now prev c7_state))
    = PlayerPage.currentChannel c7_state.
Proof.
  refine (next_and_prev_undo_each_other sample_now (sample_now + 5000) c7_state c7_metadata
            c7_final eq_refl _ _ eq_refl).
  - unfold distinctObjects. apply (bool_decide_unpack _). vm_compute. exact I.
  - vm_compute. auto.
Defined.

Lemma stepping_selects (now : Z) (st : State) (md : Metadata) (cur : ChannelObj)
      (target : NavTarget) :
  metadata st = Some md ->
  channels md <> [] ->
  currentChannel st = Some cur ->
  target = prev \/ target = next ->
  exists c, handleChannelNavigate now target st = selectChannel now (Some c) st
            /\ In c (channels md).
Proof.
  intros Hmd Hne Hcur Hdir.
  assert (Hlen : 0 < Z.of_nat (List.length (channels md))).
  { destruct (channels md); [congruence | cbn [List.length]; lia]. }
  rewrite (navigate_unfold now st md cur target Hmd Hne Hcur Hdir).
  cbv zeta. unfold findIndex.
  pose proof (findIndexFrom_range (channels md) 0 cur) as Hr.
  set (idx := findIndexFrom 0 cur (channels md)) in *.
  set (len := Z.of_nat (List.length (channels md))) in *.
  destruct (at_In (channels md)
              (match target with
               | prev => if 0 <? idx then idx - 1 else len - 1
               | _ => if idx <? len - 1 then idx + 1 else 0
               end)) as (c & Hat & Hin).
  { fold len. destruct Hdir as [-> | ->].
    - destruct (Z.ltb_spec 0 idx); lia.
    - destruct (Z.ltb_spec idx (len - 1)); lia. }
  exists c. rewrite Hat. split; [reflexivity | exact Hin].
Qed.

Section NavigationAndPlayback.

Variable build : Channel -> JS.Date -> Z -> JS.Outcome (list MediaSegment).

Lemma select_then_live (N N' : Z) (c : ChannelObj) (st : State) :
  N <= N' < N + 3000 ->
  exists st', playbackEffect build N' (selectChannel N (Some c) st) = JS.Returned st'
              /\ playsLive (chan c) st'
              /\ currentChannel st' = Some c.
Proof.
  intros HN. apply (playbackEffect_live build N' _ c N); [reflexivity | reflexivity | lia].
Qed.

(** X23.  Every navigation that selects a channel puts it on live.  A
    position [n] between 1 and the size of the catalog selects the [n]-th
    channel, and the playback effect run within three seconds plays that
    channel live (one segment, its own URL); a position outside that
    range changes nothing.  A step to the previous or next channel is
    followed by live playback of the selected channel in the same way. *)
Theorem navigation_restarts_live_playback (N N' : Z) (st : State) (md : Metadata) :
  metadata st = Some md ->
  N <= N' < N + 3000 ->
  (forall (n : nat) c, channels md !! n = Some c ->
     exists st',
       playbackEffect build N' (handleChannelNavigate N (position (Z.of_nat n + 1)) st)
         = JS.Returned st'
       /\ currentChannel st' = Some c
       /\ playsLive (chan c) st')
  /\ (forall n, n < 1 \/ Z.of_nat (List.length (channels md)) < n ->
       handleChannelNavigate N (position n) st = st)
  /\ (forall target cur,
       channels md <> [] -> currentChannel st = Some cur ->
       target = prev \/ target = next ->
       exists c st',
         currentChannel (handleChannelNavigate N target st) = Some c
         /\ playbackEffect build N' (handleChannelNavigate N target st) = JS.Returned st'
         /\ playsLive (chan c) st').
Proof.
  intros Hmd HN. split; [| split].
  - intros n c Hn.
    assert (Hlt : (n < List.length (channels md))%nat) by (eapply lookup_lt_Some; exact Hn).
    unfold handleChannelNavigate. rewrite Hmd.
    destruct (Z.eqb_spec (Z.of_nat (List.length (channels md))) 0); [lia |].
    replace (Z.of_nat n + 1 - 1) with (Z.of_nat n) by lia.
    rewrite at_lookup, Hn.
    destruct (select_then_live N N' c st HN) as (st' & Hst' & Hlive & Hc).
    exists st'. auto.
  - intros n Hn. unfold handleChannelNavigate. rewrite Hmd.
    destruct (Z.eqb_spec (Z.of_nat (List.length (channels md))) 0); [reflexivity |].
    rewrite at_out_of_range by lia. reflexivity.
  - intros target cur Hne Hcur Hdir.
    destruct (stepping_selects N st md cur target Hmd Hne Hcur Hdir) as (c & -> & _).
    destruct (select_then_live N N' c st HN) as (st' & Hst' & Hlive & _).
    exists c, st'. rewrite currentChannel_select. auto.
Qed.

End NavigationAndPlayback.

Lemma navigation_restarts_live_playback_witness :
  handleChannelNavigate sample_now (position 4) c7_state = c7_state.
Proof.
  apply (proj1 (proj2 (navigation_restarts_live_playback strict_builder sample_now
                         (sample_now + 1000) c7_state c7_metadata eq_refl
                         ltac:(vm_compute; split; congruence)))).
  right. vm_compute. reflexivity.
Defined.

End Navigation.

Section RestoringTheLastChannel.
Import PlayerPage Startup.

Lemma find_first {A : Type} (f : A -> bool) (l : list A) (c : A) :
  find f l = Some c ->
  exists front back,
    l = (front ++ c :: back)%list /\ f c = true /\ forall x, In x front -> f x = false.
Proof.
  induction l as [|x l IH]; [discriminate |]. cbn [find].
  destruct (f x) eqn:Hx.
  - intros [= ->]. exists [], l. split; [reflexivity |]. split; [exact Hx | intros y []].
  - intros Hf. destruct (IH Hf) as (front & back & -> & Hc & Hfront).
    exists (x :: front), back. split; [reflexivity |]. split; [exact Hc |].
    intros y [<- | Hy]; [exact Hx | apply Hfront, Hy].
Qed.

Lemma firstWith_unique {A : Type} (P : A -> Prop) (c c' : A) (l : list A) :
  firstWith P c l -> firstWith P c' l -> c = c'.
Proof.
  intros (f1 & b1 & E1 & Hc & H1) (f2 & b2 & E2 & Hc' & H2). subst l.
  revert f2 E2 H2. induction f1 as [|x f1 IH]; intros [|y f2] E2 H2.
  - injection E2 as E _. exact E.
  - injection E2 as E _. subst y. exfalso. apply (H2 c); [left; reflexivity | exact Hc].
  - injection E2 as E _. subst x. exfalso. apply (H1 c'); [left; reflexivity | exact Hc'].
  - injection E2 as _ E. apply IH with (f2 := f2).
    + intros z Hz. apply H1. right. exact Hz.
    + exact E.
    + intros z Hz. apply H2. right. exact Hz.
Qed.

Lemma find_by_id {A : Type} (channelOf : A -> Channel) (k : string) (l : list A) :
  match find (fun c => String.eqb (ch_id (channelOf c)) k) l with
  | Some c => firstWith (fun x => hasId k (channelOf x)) c l
  | None => unknownId channelOf k l
  end.
Proof.
  destruct (find _ l) as [c|] eqn:Hf.
  - destruct (find_first _ l c Hf) as (front & back & -> & Hc & Hfront).
    exists front, back. split; [reflexivity |]. split.
    + apply String.eqb_eq. exact Hc.
    + intros x Hx E. apply Hfront in Hx. apply String.eqb_neq in Hx. apply Hx, E.
  - intros c Hc E. pose proof (find_none _ l Hf c Hc) as Hn. cbv beta in Hn.
    apply String.eqb_neq in Hn. apply Hn, E.
Qed.

Lemma truthy_nonempty (k : string) : JS.truthy (Some k) = true <-> k <> "".
Proof.
  unfold JS.truthy. destruct (String.eqb_spec k ""); split; intros H; try congruence.
  - discriminate.
  - reflexivity.
Qed.

(** X25.  The channel the player page starts with.  After a playlist with
    at least one channel is parsed, [loadPlaylist] always selects an
    element of the catalog: the first channel whose id is the stored id
    when that id is non-empty and some channel has it, and the first
    channel of the playlist otherwise (no stored id, an empty one, or an
    id that no channel has). *)
Theorem player_page_always_starts_on_a_channel
  (objs : list ChannelObj) (lastChannelId : option string) :
  objs <> [] ->
  exists c,
    channelToSelect objs lastChannelId = Some c
    /\ In c objs
    /\ (forall k, lastChannelId = Some k -> k <> "" ->
         ~ unknownId chan k objs ->
         firstWith (fun x => hasId k (chan x)) c objs)
    /\ ((JS.truthy lastChannelId = false
         \/ exists k, lastChannelId = Some k /\ unknownId chan k objs) ->
        head objs = Some c).
Proof.
  intros Hne. destruct objs as [|first rest]; [congruence |]. clear Hne.
  unfold channelToSelect.
  destruct lastChannelId as [id|].
  - destruct (JS.truthy (Some id)) eqn:Ht.
    + pose proof (find_by_id chan id (first :: rest)) as Hfind.
      destruct (find _ (first :: rest)) as [c|] eqn:Hf.
      * exists c. split; [reflexivity |]. split.
        { destruct Hfind as (front & back & -> & _). apply in_elt. }
        split.
        { intros k [= <-] _ _. exact Hfind. }
        { intros [Hfalse | (k & [= <-] & Hunk)]; [discriminate |].
          exfalso. destruct Hfind as (front & back & E & Hc & _).
          apply (Hunk c); [rewrite E; apply in_elt | exact Hc]. }
      * exists first. split; [reflexivity |]. split; [left; reflexivity |]. split.
        { intros k [= <-] _ Hknown. exfalso. apply Hknown, Hfind. }
        { intros _. reflexivity. }
    + exists first. split; [reflexivity |]. split; [left; reflexivity |]. split.
      * intros k [= <-] Hk. apply truthy_nonempty in Hk. congruence.
      * intros _. reflexivity.
  - exists first. split; [reflexivity |]. split; [left; reflexivity |]. split.
    + intros k [=].
    + intros _. reflexivity.
Qed.

Lemma player_page_always_starts_on_a_channel_witness :
  exists c,
    channelToSelect c7_objects (Some "gone") = Some c
    /\ In c c7_objects
    /\ (forall k, Some "gone" = Some k -> k <> "" ->
         ~ unknownId chan k c7_objects ->
         firstWith (fun x => hasId k (chan x)) c c7_objects)
    /\ ((JS.truthy (Some "gone") = false
         \/ exists k, Some "gone" = Some k /\ unknownId chan k c7_objects) ->
        head c7_objects = Some c).
Proof.
  apply (player_page_always_starts_on_a_channel c7_objects (Some "gone")).
  discriminate.
Defined.

(** X26.  The channel the [App] component starts with.  With no stored
    id, or an empty one, it makes the first channel of the list current
    (nothing when the list is empty); with a non-empty stored id it makes
    the first channel with that id current, and when no channel has that
    id it makes nothing current, although the list may hold channels. *)
Theorem app_starts_on_the_stored_channel_or_none
  (channels : list Channel) (lastChannelId : option string) :
  (JS.truthy lastChannelId = false ->
     initialChannel channels lastChannelId = head channels)
  /\ (forall k, lastChannelId = Some k -> k <> "" ->
       (unknownId id k channels -> initialChannel channels lastChannelId = None)
       /\ (forall c, firstWith (hasId k) c channels ->
            initialChannel channels lastChannelId = Some c)).
Proof.
  split.
  - intros Ht. unfold initialChannel. destruct channels as [|first rest]; [reflexivity |].
    destruct lastChannelId as [k|]; [| reflexivity]. rewrite Ht. reflexivity.
  - intros k -> Hk. apply truthy_nonempty in Hk.
    pose proof (find_by_id id k channels) as Hfind. unfold id in Hfind at 1.
    split.
    + intros Hunk. unfold initialChannel. destruct channels as [|first rest]; [reflexivity |].
      rewrite Hk. destruct (find _ (first :: rest)) as [c|]; [| reflexivity].
      exfalso. destruct Hfind as (front & back & E & Hc & _).
      apply (Hunk c); [rewrite E; apply in_elt | exact Hc].
    + intros c Hfirst. unfold initialChannel.
      destruct channels as [|first rest].
      { destruct Hfirst as ([|? ?] & back & E & _); discriminate. }
      rewrite Hk. destruct (find _ (first :: rest)) as [c'|].
      * f_equal. apply (firstWith_unique _ _ _ _ Hfind Hfirst).
      * exfalso. destruct Hfirst as (front & back & E & Hc & _).
        apply (Hfind c); [rewrite E; apply in_elt | exact Hc].
Qed.

Lemma app_starts_on_the_stored_channel_or_none_witness :
  initialChannel c7_catalog (Some "gone") = None.
Proof.
  apply (proj2 (app_starts_on_the_stored_channel_or_none c7_catalog (Some "gone"))
           "gone" eq_refl ltac:(discriminate)).
  intros c Hc. vm_compute in Hc. unfold hasId, id.
  destruct Hc as [<- | [<- | [<- | []]]]; discriminate.
Defined.

Lemma addIfTruthy_spec (x : option string) (ids : gset string) (k : string) :
  k ∈ addIfTruthy x ids <-> k ∈ ids \/ (x = Some k /\ k <> "").
Proof.
  unfold addIfTruthy. destruct x as [s|].
  - destruct (JS.truthy (Some s)) eqn:Ht.
    + apply truthy_nonempty in Ht. rewrite elem_of_union, elem_of_singleton. split.
      * intros [H | ->]; [left; exact H | right; split; [reflexivity | exact Ht]].
      * intros [H | [[= ->] _]]; [left; exact H | right; reflexivity].
    + split; [intros H; left; exact H |].
      intros [H | [[= ->] Hk]]; [exact H |].
      apply truthy_nonempty in Hk. congruence.
  - split; [intros H; left; exact H | intros [H | [[=] _]]; exact H].
Qed.

Lemma addChannelIds_spec (ids : gset string) (c : Channel) (k : string) :
  k ∈ addChannelIds ids c <-> k ∈ ids \/ identityOf c k.
Proof.
  unfold addChannelIds, identityOf.
  rewrite elem_of_union, elem_of_singleton, !addIfTruthy_spec. tauto.
Qed.

Lemma fold_addChannelIds (channels : list Channel) (ids : gset string) (k : string) :
  k ∈ fold_left addChannelIds channels ids
  <-> k ∈ ids \/ exists c, In c channels /\ identityOf c k.
Proof.
  revert ids. induction channels as [|c channels IH]; intros ids.
  - simpl. split; [intros H; left; exact H | intros [H | (c & [] & _)]; exact H].
  - cbn [fold_left]. rewrite IH, addChannelIds_spec. split.
    + intros [[H | H] | (c' & Hc' & H)].
      * left. exact H.
      * right. exists c. split; [left; reflexivity | exact H].
      * right. exists c'. split; [right; exact Hc' | exact H].
    + intros [H | (c' & [<- | Hc'] & H)].
      * left. left. exact H.
      * left. right. exact H.
      * right. exists c'. split; assumption.
Qed.

(** X27.  The filter of the guide.  [validChannelIds] holds exactly the
    identities of the channels of the playlist: every channel name (an
    empty one included), and every tvg-id and tvg-name that is present
    and not empty. *)
Theorem valid_ids_are_the_channel_identities (channels : list Channel) (k : string) :
  k ∈ validChannelIds channels <-> exists c, In c channels /\ identityOf c k.
Proof.
  unfold validChannelIds. rewrite fold_addChannelIds. split.
  - intros [H | H]; [| exact H]. exfalso. revert H. apply not_elem_of_empty.
  - intros H. right. exact H.
Qed.

End RestoringTheLastChannel.

(** ** The player state of the [App] component *)

Section PlayerStateMachine.
Import PlayerComponent.

(** X28.  Volume decides mute.  After a volume change the volume is the
    one given and the player is muted exactly when that volume is 0,
    whatever the mute flag was; nothing else changes.  So a mute toggle
    is forgotten by the next volume change. *)
Theorem volume_change_decides_mute (v : option Z) (st : PlayerState) :
  let st' := dispatch (handleVolumeChange v) st in
  volume st' = v
  /\ isMuted st' = isZero v
  /\ (currentChannel st', playMode st', currentTime st', isPlaying st')
     = (currentChannel st, playMode st, currentTime st, isPlaying st)
  /\ dispatch (handleVolumeChange v) (dispatch handleMuteToggle st) = st'.
Proof.
  cbv zeta. unfold dispatch, handleVolumeChange, handleMuteToggle, updatePlayerState.
  cbn [u_currentChannel u_playMode u_currentTime u_isPlaying u_volume u_isMuted
       default currentChannel playMode currentTime isPlaying volume isMuted].
  split; [reflexivity |]. split.
  - destruct (isZero v); [reflexivity |]. destruct (isMuted st); reflexivity.
  - split; [reflexivity |].
    destruct (isZero v); [reflexivity |]. destruct (isMuted st); reflexivity.
Qed.

Lemma catchup_second (N : Z) : (N - 3600 * 1000) / 1000 = N / 1000 - 3600.
Proof.
  replace (N - 3600 * 1000) with (N + (-3600) * 1000) by lia.
  rewrite Z.div_add by lia. lia.
Qed.

(** X29.  What the player loads after a change of mode.  Selecting a
    channel loads the channel's own URL.  Selecting a programme loads
    that URL with [?catchup=] and the start of the programme in whole
    seconds (rounded down), or [?catchup=NaN] when the start is not a
    valid date.  Toggling the mode on a live channel at time [N] loads the
    catchup URL of one hour earlier, and toggling once more loads the
    channel's own URL again. *)
Theorem loaded_url_follows_the_mode (N N' : Z) (channel : Channel) (st : PlayerState) :
  let selected := handleChannelSelect N channel st in
  loadedUrl selected = Some (ch_url channel)
  /\ (forall start end_,
        loadedUrl (handleProgramSelect start end_ selected)
        = Some (ch_url channel ++ "?catchup="
                ++ match start with
                   | Some s => JS.showZ (s / 1000)
                   | None => "NaN"
                   end))
  /\ loadedUrl (dispatch (handleModeToggle N') selected)
     = Some (ch_url channel ++ "?catchup=" ++ JS.showZ (N' / 1000 - 3600))
  /\ forall N'',
       loadedUrl (dispatch (handleModeToggle N'') (dispatch (handleModeToggle N') selected))
       = Some (ch_url channel).
Proof.
  cbv zeta. split; [reflexivity |]. split; [| split].
  - intros [s|] end_; reflexivity.
  - unfold loadedUrl, dispatch, handleModeToggle, updatePlayerState, handleChannelSelect,
      playUrl.
    cbn [u_currentChannel u_playMode u_currentTime u_isPlaying u_volume u_isMuted
         default currentChannel playMode currentTime isPlaying volume isMuted JS.getTime].
    unfold id, JS.showNumber. rewrite catchup_second. reflexivity.
  - intros N''. reflexivity.
Qed.

End PlayerStateMachine.
